(** * XXTEA block cipher (package xxtea): a shallow embedding of xxtea.go

    The Go functions [NewKey], [AsBELE], [AsLEBE], [AsLELE], [chk4len],
    [TeaKey.Encrypt] and [TeaKey.Decrypt] are embedded as programs of a small
    state-and-panic monad over a store of byte buffers.  A slice is the name
    of its backing buffer, so that passing the same slice twice aliases.
    Unsigned 32-bit words are integers of [Z] with the wrap-around written
    out; Go's [int] values (slice lengths and indices of the As... helpers)
    stay between -1 and the buffer length and are kept as plain integers. *)

From Stdlib Require Import ZArith Lia.
From Stdlib Require Import Strings.String Strings.Byte.
From stdpp Require Import base gmap list.
Import Init.Byte.

Local Open Scope Z_scope.

(** ** Unsigned 32-bit arithmetic *)

Module U32.

Definition modulus : Z := 2 ^ 32.

(** Conversion of an integer to uint32 (truncation to the low 32 bits). *)
Definition wrap (x : Z) : Z := x mod modulus.

Definition add (a b : Z) : Z := wrap (a + b).
Definition sub (a b : Z) : Z := wrap (a - b).
Definition mul (a b : Z) : Z := wrap (a * b).
Definition shl (a : Z) (n : Z) : Z := wrap (Z.shiftl a n).
Definition shr (a : Z) (n : Z) : Z := Z.shiftr a n.

Definition in_range (x : Z) : Prop := 0 <= x < modulus.

(** uint32(b) for a byte b *)
Definition of_byte (b : byte) : Z := Z.of_N (Byte.to_N b).

(** byte(k) for a uint32 k: the low eight bits *)
Definition to_byte (k : Z) : byte :=
  match Byte.of_N (Z.to_N (k mod 256)) with
  | Some b => b
  | None => x00
  end.

End U32.

(** ** Results, the store and the monad *)

(** How a Go call can stop without returning: [panic(msg)] of the program,
    or a run-time panic (index out of range, integer divide by zero). *)
Inductive panic : Type :=
  | PanicMsg (msg : string)
  | IndexOutOfRange
  | DivideByZero.

(** [OutOfFuel] is the loop bound of the embedding, not a Go behaviour;
    the theorems below show it is never returned. *)
Inductive result (A : Type) : Type :=
  | Ok (a : A)
  | Panicked (p : panic)
  | OutOfFuel.
Arguments Ok {A} a.
Arguments Panicked {A} p.
Arguments OutOfFuel {A}.

(** A slice is identified with its backing buffer. *)
Definition slice : Type := positive.
Abbreviation mem := (gmap positive (list byte)).

(** A program: runs on a store, yields a result and the store it left. *)
Definition M (A : Type) : Type := mem -> result A * mem.

Global Instance M_ret : MRet M := fun A (a : A) (m : mem) => (Ok a, m).

Global Instance M_bind : MBind M := fun A B (f : A -> M B) (c : M A) (m : mem) =>
  match c m with
  | (Ok a, m') => f a m'
  | (Panicked p, m') => (Panicked p, m')
  | (OutOfFuel, m') => (OutOfFuel, m')
  end.

Definition raise {A : Type} (msg : string) : M A :=
  fun m => (Panicked (PanicMsg msg), m).

Definition out_of_fuel {A : Type} : M A := fun m => (OutOfFuel, m).

(** Contents of a slice; a slice that names no buffer is the nil slice. *)
Definition buf (m : mem) (s : slice) : list byte := default [] (m !! s).

(** len(s) *)
Definition len (s : slice) : M Z :=
  fun m => (Ok (Z.of_nat (length (buf m s))), m).

(** s[i] as an expression *)
Definition load (s : slice) (i : Z) : M byte := fun m =>
  if 0 <=? i then
    match buf m s !! Z.to_nat i with
    | Some b => (Ok b, m)
    | None => (Panicked IndexOutOfRange, m)
    end
  else (Panicked IndexOutOfRange, m).

(** s[i] = b *)
Definition store (s : slice) (i : Z) (b : byte) : M unit := fun m =>
  if (0 <=? i) && (i <? Z.of_nat (length (buf m s))) then
    (Ok tt, <[s := <[Z.to_nat i := b]> (buf m s)]> m)
  else (Panicked IndexOutOfRange, m).

(** Fixed-size arrays of words ([52]uint32) are values: a read or a write
    out of range panics, a write yields the updated array. *)
Definition aget (v : list Z) (i : Z) : M Z := fun m =>
  if 0 <=? i then
    match v !! Z.to_nat i with
    | Some x => (Ok x, m)
    | None => (Panicked IndexOutOfRange, m)
    end
  else (Panicked IndexOutOfRange, m).

Definition aset (v : list Z) (i : Z) (x : Z) : M (list Z) := fun m =>
  if (0 <=? i) && (i <? Z.of_nat (length v)) then
    (Ok (<[Z.to_nat i := x]> v), m)
  else (Panicked IndexOutOfRange, m).

(** ** Constants *)

Definition em : string := "xxtea: XXTEA cipher misuse! Read teh Docs, Luke!".
Definition delta : Z := 0x9e3779b9.

(** ** TeaKey: [4]uint32 *)

Record TeaKey : Type := mkTeaKey { k0 : Z; k1 : Z; k2 : Z; k3 : Z }.

Definition TeaKey_zero : TeaKey := mkTeaKey 0 0 0 0.

(** k[i] *)
Definition kget (k : TeaKey) (i : Z) : M Z := fun m =>
  match i with
  | 0 => (Ok (k0 k), m)
  | 1 => (Ok (k1 k), m)
  | 2 => (Ok (k2 k), m)
  | 3 => (Ok (k3 k), m)
  | _ => (Panicked IndexOutOfRange, m)
  end.

(** k[i] = x *)
Definition kset (k : TeaKey) (i : Z) (x : Z) : M TeaKey := fun m =>
  match i with
  | 0 => (Ok (mkTeaKey x (k1 k) (k2 k) (k3 k)), m)
  | 1 => (Ok (mkTeaKey (k0 k) x (k2 k) (k3 k)), m)
  | 2 => (Ok (mkTeaKey (k0 k) (k1 k) x (k3 k)), m)
  | 3 => (Ok (mkTeaKey (k0 k) (k1 k) (k2 k) x), m)
  | _ => (Panicked IndexOutOfRange, m)
  end.

(** uint32(b0)<<24 | uint32(b1)<<16 | uint32(b2)<<8 | uint32(b3) *)
Definition from_bytes (b0 b1 b2 b3 : byte) : Z :=
  Z.lor (Z.lor (Z.lor (U32.shl (U32.of_byte b0) 24) (U32.shl (U32.of_byte b1) 16))
               (U32.shl (U32.of_byte b2) 8))
        (U32.of_byte b3).

(** ** NewKey *)

(** for n := 0; n < 16; n += 4 { k[n>>2] = ...; c |= k[n>>2] } *)
Fixpoint NewKey_loop (fuel : nat) (key : slice) (n : Z) (k : TeaKey) (c : Z)
  : M (TeaKey * Z) :=
  match fuel with
  | O => out_of_fuel
  | S fuel =>
      if n <? 16 then
        b0 ← load key n;
        b1 ← load key (n + 1);
        b2 ← load key (n + 2);
        b3 ← load key (n + 3);
        k ← kset k (Z.shiftr n 2) (from_bytes b0 b1 b2 b3);
        w ← kget k (Z.shiftr n 2);
        NewKey_loop fuel key (n + 4) k (Z.lor c w)
      else mret (k, c)
  end.

Definition NewKey (key : slice) : M TeaKey :=
  l ← len key;
  if negb (l =? 16) then raise em
  else
    kc ← NewKey_loop 5 key 0 TeaKey_zero 0;
    if snd kc =? 0 then raise em (* all-zeros key *)
    else mret (fst kc).

(** ** chk4len and the byte-order helpers *)

Definition chk4len (l : Z) : M Z :=
  if (l <? 4) || negb (Z.land l 3 =? 0) then raise em
  else mret (l - 1).

(** The body of AsBELE's loop is one tuple assignment: the eight right-hand
    sides are read first, then the eight stores happen left to right. *)
Fixpoint AsBELE_loop (fuel : nat) (d : slice) (i l : Z) : M unit :=
  match fuel with
  | O => out_of_fuel
  | S fuel =>
      if i <? l then
        r0 ← load d (l - 3);
        r1 ← load d (l - 2);
        r2 ← load d (l - 1);
        r3 ← load d l;
        r4 ← load d (i + 0);
        r5 ← load d (i + 1);
        r6 ← load d (i + 2);
        r7 ← load d (i + 3);
        store d (i + 0) r0;;
        store d (i + 1) r1;;
        store d (i + 2) r2;;
        store d (i + 3) r3;;
        store d (l - 3) r4;;
        store d (l - 2) r5;;
        store d (l - 1) r6;;
        store d l r7;;
        AsBELE_loop fuel d (i + 4) (l - 4)
      else mret tt
  end.

Definition AsBELE (d : slice) : M slice :=
  n ← len d;
  l ← chk4len n;
  AsBELE_loop (S (Z.to_nat n)) d 0 l;;
  mret d.

(** for i < chk4len(len(d)) { ... }: the check runs at every test. *)
Fixpoint AsLEBE_loop (fuel : nat) (d : slice) (i : Z) : M unit :=
  match fuel with
  | O => out_of_fuel
  | S fuel =>
      n ← len d;
      l ← chk4len n;
      if i <? l then
        r0 ← load d (i + 3);
        r1 ← load d (i + 2);
        r2 ← load d (i + 1);
        r3 ← load d (i + 0);
        store d (i + 0) r0;;
        store d (i + 1) r1;;
        store d (i + 2) r2;;
        store d (i + 3) r3;;
        AsLEBE_loop fuel d (i + 4)
      else mret tt
  end.

Definition AsLEBE (d : slice) : M slice :=
  n ← len d;
  AsLEBE_loop (S (Z.to_nat n)) d 0;;
  mret d.

Fixpoint AsLELE_loop (fuel : nat) (d : slice) (i l : Z) : M unit :=
  match fuel with
  | O => out_of_fuel
  | S fuel =>
      if i <? l then
        r0 ← load d l;
        r1 ← load d i;
        store d i r0;;
        store d l r1;;
        AsLELE_loop fuel d (i + 1) (l - 1)
      else mret tt
  end.

Definition AsLELE (d : slice) : M slice :=
  n ← len d;
  l ← chk4len n;
  AsLELE_loop (S (Z.to_nat n)) d 0 l;;
  mret d.

(** ** The round function and the two block transforms *)

(** The expression the source writes out at each update of a word (MX in the
    reference C code), with the key word [kw] = k[p&3^e] already read:
    ((z>>5 ^ y<<2) + (y>>3 ^ z<<4)) ^ ((sum ^ y) + (kw ^ z)) *)
Definition MX (y z sum kw : Z) : Z :=
  Z.lxor (U32.add (Z.lxor (U32.shr z 5) (U32.shl y 2))
                  (Z.lxor (U32.shr y 3) (U32.shl z 4)))
         (U32.add (Z.lxor sum y) (Z.lxor kw z)).

(** Unsigned division; Go panics on a zero divisor. *)
Definition udiv (a b : Z) : M Z := fun m =>
  if b =? 0 then (Panicked DivideByZero, m) else (Ok (a / b), m).

(** for n = 0; n < z; n += 4 { v[n>>2] = uint32(in[n])<<24 | ... } *)
Fixpoint load_words (fuel : nat) (in_ : slice) (z n : Z) (v : list Z)
  : M (list Z) :=
  match fuel with
  | O => out_of_fuel
  | S fuel =>
      if n <? z then
        b0 ← load in_ n;
        b1 ← load in_ (U32.add n 1);
        b2 ← load in_ (U32.add n 2);
        b3 ← load in_ (U32.add n 3);
        v ← aset v (U32.shr n 2) (from_bytes b0 b1 b2 b3);
        load_words fuel in_ z (U32.add n 4) v
      else mret v
  end.

(** for n = 0; n < uint32(len(out)); n += 4 { k := v[n>>2]; out[n], ... = ... } *)
Fixpoint store_words (fuel : nat) (out : slice) (v : list Z) (n : Z) : M unit :=
  match fuel with
  | O => out_of_fuel
  | S fuel =>
      lo ← len out;
      if n <? U32.wrap lo then
        k ← aget v (U32.shr n 2);
        store out n (U32.to_byte (U32.shr k 24));;
        store out (U32.add n 1) (U32.to_byte (U32.shr k 16));;
        store out (U32.add n 2) (U32.to_byte (U32.shr k 8));;
        store out (U32.add n 3) (U32.to_byte k);;
        store_words fuel out v (U32.add n 4)
      else mret tt
  end.

(** The local variables the round loops carry. *)
Record locals : Type := mkLocals { lv : list Z; ly : Z; lz : Z; lp : Z }.

(** for p = 0; p < n-1; p++ { y = v[p+1]; v[p] += MX; z = v[p] } *)
Fixpoint Encrypt_inner (fuel : nat) (k : TeaKey) (n sum e : Z) (s : locals)
  : M locals :=
  match fuel with
  | O => out_of_fuel
  | S fuel =>
      let '(mkLocals v y z p) := s in
      if p <? U32.sub n 1 then
        y ← aget v (U32.add p 1);
        x ← aget v p;
        kw ← kget k (Z.lxor (Z.land p 3) e);
        v ← aset v p (U32.add x (MX y z sum kw));
        z ← aget v p;
        Encrypt_inner fuel k n sum e (mkLocals v y z (U32.add p 1))
      else mret s
  end.

(** for rounds > 0 { rounds--; sum += delta; e := (sum >> 2) & 3; ... } *)
Fixpoint Encrypt_rounds (fuel : nat) (k : TeaKey) (n rounds sum : Z) (s : locals)
  : M locals :=
  match fuel with
  | O => out_of_fuel
  | S fuel =>
      if 0 <? rounds then
        let rounds := U32.sub rounds 1 in
        let sum := U32.add sum delta in
        let e := Z.land (U32.shr sum 2) 3 in
        s ← Encrypt_inner (S (Z.to_nat n)) k n sum e
              (mkLocals (lv s) (ly s) (lz s) 0);
        let '(mkLocals v y z p) := s in
        y ← aget v 0;
        x ← aget v (U32.sub n 1);
        kw ← kget k (Z.lxor (Z.land p 3) e);
        v ← aset v (U32.sub n 1) (U32.add x (MX y z sum kw));
        z ← aget v (U32.sub n 1);
        Encrypt_rounds fuel k n rounds sum (mkLocals v y z p)
      else mret s
  end.

Definition Encrypt (k : TeaKey) (in_ out : slice) : M slice :=
  li ← len in_;
  lo ← len out;
  let z := U32.wrap li in (* z bytes (temp) *)
  if (z <? 12) || (z >? 208) || negb (Z.land z 3 =? 0) || negb (z =? U32.wrap lo)
  then raise em
  else
    v ← load_words (S (Z.to_nat z)) in_ z 0 (replicate 52 0);
    let n := U32.shr z 2 in
    q ← udiv 52 n;
    let rounds := U32.add 6 q in
    z ← aget v (U32.sub n 1);
    s ← Encrypt_rounds (S (Z.to_nat rounds)) k n rounds 0 (mkLocals v 0 z 0);
    store_words (S (Z.to_nat (U32.wrap lo))) out (lv s) 0;;
    mret out.

(** for p = n - 1; p > 0; p-- { z = v[p-1]; v[p] -= MX; y = v[p] } *)
Fixpoint Decrypt_inner (fuel : nat) (k : TeaKey) (sum e : Z) (s : locals)
  : M locals :=
  match fuel with
  | O => out_of_fuel
  | S fuel =>
      let '(mkLocals v y z p) := s in
      if 0 <? p then
        z ← aget v (U32.sub p 1);
        x ← aget v p;
        kw ← kget k (Z.lxor (Z.land p 3) e);
        v ← aset v p (U32.sub x (MX y z sum kw));
        y ← aget v p;
        Decrypt_inner fuel k sum e (mkLocals v y z (U32.sub p 1))
      else mret s
  end.

(** for rounds > 0 { rounds--; e := (sum >> 2) & 3; ...; sum -= delta } *)
Fixpoint Decrypt_rounds (fuel : nat) (k : TeaKey) (n rounds sum : Z) (s : locals)
  : M locals :=
  match fuel with
  | O => out_of_fuel
  | S fuel =>
      if 0 <? rounds then
        let rounds := U32.sub rounds 1 in
        let e := Z.land (U32.shr sum 2) 3 in
        s ← Decrypt_inner (S (Z.to_nat n)) k sum e
              (mkLocals (lv s) (ly s) (lz s) (U32.sub n 1));
        let '(mkLocals v y z p) := s in
        z ← aget v (U32.sub n 1);
        x ← aget v 0;
        kw ← kget k (Z.lxor (Z.land p 3) e);
        v ← aset v 0 (U32.sub x (MX y z sum kw));
        y ← aget v 0;
        Decrypt_rounds fuel k n rounds (U32.sub sum delta) (mkLocals v y z p)
      else mret s
  end.

Definition Decrypt (k : TeaKey) (in_ out : slice) : M slice :=
  li ← len in_;
  lo ← len out;
  let y := U32.wrap li in (* y bytes (temp) *)
  if (y <? 12) || (y >? 208) || negb (Z.land y 3 =? 0) || negb (y =? U32.wrap lo)
  then raise em
  else
    v ← load_words (S (Z.to_nat y)) in_ y 0 (replicate 52 0);
    let n := U32.shr y 2 in
    q ← udiv 52 n;
    let rounds := U32.add 6 q in
    y ← aget v 0;
    let sum := U32.mul rounds delta in
    s ← Decrypt_rounds (S (Z.to_nat rounds)) k n rounds sum (mkLocals v y 0 0);
    store_words (S (Z.to_nat (U32.wrap lo))) out (lv s) 0;;
    mret out.

(** ** someBytesEqual (xxtea_test.go) *)

(** for i, b := range []byte(s) { if b == r[i] { return true } } *)
Fixpoint someBytesEqual_range (r : slice) (i : Z) (bs : list byte) : M bool :=
  match bs with
  | [] => mret false
  | b :: bs =>
      x ← load r i;
      if Byte.eqb b x then mret true
      else someBytesEqual_range r (i + 1) bs
  end.

(** A Go string is its bytes; len(s) is their number. *)
Definition someBytesEqual (r : slice) (s : string) : M bool :=
  n ← len r;
  if negb (n =? Z.of_nat (String.length s)) then mret true
  else someBytesEqual_range r 0 (list_byte_of_string s).

(** * Specification-level functions

    Pure functions on lists, written after the prose of the specification
    (sections 4.1 to 4.5); the programs above are compared with them. *)

Module Spec.

Definition DELTA : Z := 0x9E3779B9.

(** A word is built big-endian from 4 consecutive bytes. *)
Definition word_of_bytes (b0 b1 b2 b3 : byte) : Z :=
  U32.of_byte b0 * 2 ^ 24 + U32.of_byte b1 * 2 ^ 16
  + U32.of_byte b2 * 2 ^ 8 + U32.of_byte b3.

Fixpoint words_of_bytes (b : list byte) : list Z :=
  match b with
  | b0 :: b1 :: b2 :: b3 :: r => word_of_bytes b0 b1 b2 b3 :: words_of_bytes r
  | _ => []
  end.

Definition bytes_of_word (w : Z) : list byte :=
  [U32.to_byte (w / 2 ^ 24); U32.to_byte (w / 2 ^ 16);
   U32.to_byte (w / 2 ^ 8); U32.to_byte w].

Definition bytes_of_words (v : list Z) : list byte :=
  concat (bytes_of_word <$> v).

(** The 4-byte groups of a buffer. *)
Fixpoint groups (b : list byte) : list (list byte) :=
  match b with
  | b0 :: b1 :: b2 :: b3 :: r => [b0; b1; b2; b3] :: groups r
  | _ => []
  end.

(** 4.1 EndianAdapter *)
Definition ReverseWordOrder (b : list byte) : list byte :=
  concat (reverse (groups b)).
Definition ReverseBytesPerWord (b : list byte) : list byte :=
  concat (reverse <$> groups b).
Definition ReverseWhole (b : list byte) : list byte := reverse b.

(** The big-endian word held by bytes 4i .. 4i+3 of a buffer: byte 4i is
    its most significant byte. *)
Definition word_at (b : list byte) (i : nat) : Z :=
  word_of_bytes (nth (4 * i) b x00) (nth (4 * i + 1) b x00)
                (nth (4 * i + 2) b x00) (nth (4 * i + 3) b x00).

(** 4.2 KeyConstructor: 16 bytes, four big-endian words, not all zero. *)
Definition ConstructKey (b : list byte) : option TeaKey :=
  if negb (length b =? 16)%nat then None (* InvalidKeyLength *)
  else
    let w := words_of_bytes b in
    let key := mkTeaKey (w !!! 0%nat) (w !!! 1%nat) (w !!! 2%nat) (w !!! 3%nat) in
    if Z.lor (Z.lor (Z.lor (k0 key) (k1 key)) (k2 key)) (k3 key) =? 0
    then None (* ZeroKey *)
    else Some key.

(** 4.3 RoundMixer: unsigned 32-bit arithmetic with wrap-around, logical
    shifts. *)
Definition MX (y z sum keyword : Z) : Z :=
  Z.lxor
    (((Z.lxor (z / 2 ^ 5) ((y * 2 ^ 2) mod 2 ^ 32))
      + (Z.lxor (y / 2 ^ 3) ((z * 2 ^ 4) mod 2 ^ 32))) mod 2 ^ 32)
    (((Z.lxor sum y) + (Z.lxor keyword z)) mod 2 ^ 32).

(** key[i] for a selector i in 0..3 *)
Definition key_word (key : TeaKey) (i : Z) : Z :=
  match i with
  | 0 => k0 key
  | 1 => k1 key
  | 2 => k2 key
  | _ => k3 key
  end.

(** key selector (p & 3) ^ e *)
Definition selector (p : nat) (e : Z) : Z := Z.lxor (Z.land (Z.of_nat p) 3) e.

Definition round_index (sum : Z) : Z := Z.land (sum / 2 ^ 2) 3.

(** 4.4 step c, for one p: y = v[p+1]; v[p] += MX(...); z = v[p] *)
Definition enc_word (key : TeaKey) (sum e : Z) (vz : list Z * Z) (p : nat)
  : list Z * Z :=
  let y := vz.1 !!! S p in
  let v := <[p := (vz.1 !!! p + MX y vz.2 sum (key_word key (selector p e))) mod 2 ^ 32]> vz.1 in
  (v, v !!! p).

(** 4.4 steps b to d *)
Definition enc_round (key : TeaKey) (N : nat) (sum : Z) (vz : list Z * Z)
  : list Z * Z :=
  let e := round_index sum in
  let vz := foldl (enc_word key sum e) vz (seq 0 (N - 1)) in
  let y := vz.1 !!! 0%nat in
  let v := <[(N - 1)%nat := (vz.1 !!! (N - 1)%nat
               + MX y vz.2 sum (key_word key (selector (N - 1) e))) mod 2 ^ 32]> vz.1 in
  (v, v !!! (N - 1)%nat).

(** 4.4 step 2: repeat [rounds] times, sum += DELTA first *)
Fixpoint enc_rounds (key : TeaKey) (N rounds : nat) (sum : Z) (vz : list Z * Z)
  : list Z * Z :=
  match rounds with
  | O => vz
  | S rounds =>
      let sum := (sum + DELTA) mod 2 ^ 32 in
      enc_rounds key N rounds sum (enc_round key N sum vz)
  end.

Definition Encrypt (key : TeaKey) (b : list byte) : list byte :=
  let v := words_of_bytes b in
  let N := length v in
  let rounds := (6 + 52 / N)%nat in
  bytes_of_words (enc_rounds key N rounds 0 (v, v !!! (N - 1)%nat)).1.

(** 4.5, for one p: z = v[p-1]; v[p] -= MX(...); y = v[p] *)
Definition dec_word (key : TeaKey) (sum e : Z) (vy : list Z * Z) (p : nat)
  : list Z * Z :=
  let z := vy.1 !!! (p - 1)%nat in
  let v := <[p := (vy.1 !!! p - MX vy.2 z sum (key_word key (selector p e))) mod 2 ^ 32]> vy.1 in
  (v, v !!! p).

Definition dec_round (key : TeaKey) (N : nat) (sum : Z) (vy : list Z * Z)
  : list Z * Z :=
  let e := round_index sum in
  let vy := foldl (dec_word key sum e) vy (reverse (seq 1 (N - 1))) in
  let z := vy.1 !!! (N - 1)%nat in
  let v := <[0%nat := (vy.1 !!! 0%nat
               - MX vy.2 z sum (key_word key (selector 0 e))) mod 2 ^ 32]> vy.1 in
  (v, v !!! 0%nat).

Fixpoint dec_rounds (key : TeaKey) (N rounds : nat) (sum : Z) (vy : list Z * Z)
  : list Z * Z :=
  match rounds with
  | O => vy
  | S rounds =>
      dec_rounds key N rounds ((sum - DELTA) mod 2 ^ 32) (dec_round key N sum vy)
  end.

Definition Decrypt (key : TeaKey) (b : list byte) : list byte :=
  let v := words_of_bytes b in
  let N := length v in
  let rounds := (6 + 52 / N)%nat in
  let sum := (Z.of_nat rounds * DELTA) mod 2 ^ 32 in
  bytes_of_words (dec_rounds key N rounds sum (v, v !!! 0%nat)).1.

End Spec.

(** * Auxiliary definitions of the proofs *)

(** The length the helpers accept: at least 4 and divisible by 4. *)
Definition len4_ok (b : list byte) : Prop :=
  4 <= Z.of_nat (length b) /\ Z.of_nat (length b) mod 4 = 0.

(** The lengths Encrypt and Decrypt let through, as the code tests them:
    on z = uint32(len(in)) and uint32(len(out)). *)
Definition block_check (b_in b_out : list byte) : Prop :=
  let z := U32.wrap (Z.of_nat (length b_in)) in
  12 <= z <= 208 /\ z mod 4 = 0 /\ z = U32.wrap (Z.of_nat (length b_out)).

(** What the call leaves in [out]: the first z bytes are the transformed
    first z bytes of [in], the rest of [out] stays. *)
Definition block_result (f : list byte -> list byte) (b_in b_out : list byte)
  : list byte :=
  let z := Z.to_nat (U32.wrap (Z.of_nat (length b_in))) in
  f (take z b_in) ++ drop z b_out.

(** The rounds seen as updates of one word from its two cyclic neighbours:
    within a round the carried z is v[p-1 mod N] and the carried y is
    v[p+1 mod N]. *)
Definition mix (key : TeaKey) (N : nat) (sum e : Z) (v : list Z) (p : nat) : Z :=
  Spec.MX (v !!! ((p + 1) mod N)%nat) (v !!! ((p + N - 1) mod N)%nat) sum
          (Spec.key_word key (Spec.selector p e)).

Definition enc_upd (key : TeaKey) (N : nat) (sum e : Z) (v : list Z) (p : nat)
  : list Z :=
  <[p := (v !!! p + mix key N sum e v p) mod 2 ^ 32]> v.

Definition dec_upd (key : TeaKey) (N : nat) (sum e : Z) (v : list Z) (p : nat)
  : list Z :=
  <[p := (v !!! p - mix key N sum e v p) mod 2 ^ 32]> v.

(** One round over all words, upwards for encryption, downwards for
    decryption, and r rounds with the running sum. *)
Definition enc_pass (key : TeaKey) (N : nat) (sum : Z) (v : list Z) : list Z :=
  foldl (enc_upd key N sum (Spec.round_index sum)) v (seq 0 N).

Definition dec_pass (key : TeaKey) (N : nat) (sum : Z) (v : list Z) : list Z :=
  foldl (dec_upd key N sum (Spec.round_index sum)) v (reverse (seq 0 N)).

Fixpoint enc_passes (key : TeaKey) (N r : nat) (sum : Z) (v : list Z) : list Z :=
  match r with
  | O => v
  | S r => enc_passes key N r ((sum + Spec.DELTA) mod 2 ^ 32)
             (enc_pass key N ((sum + Spec.DELTA) mod 2 ^ 32) v)
  end.

Fixpoint dec_passes (key : TeaKey) (N r : nat) (sum : Z) (v : list Z) : list Z :=
  match r with
  | O => v
  | S r => dec_passes key N r ((sum - Spec.DELTA) mod 2 ^ 32) (dec_pass key N sum v)
  end.

(** A vector of N words, each within 32 bits. *)
Definition words_ok (N : nat) (v : list Z) : Prop :=
  length v = N /\ Forall U32.in_range v.

(** Every call either returns, or panics with the one misuse message and
    leaves the store as it was. *)
Definition returns_or_misuse {A : Type} (c : M A) (m : mem) : Prop :=
  (exists a m', c m = (Ok a, m')) \/ c m = (Panicked (PanicMsg em), m).

(** A buffer of 2^32 + 16 bytes, as a 64-bit Go program can allocate. *)
Definition oversized : list byte := replicate (Z.to_nat 4294967312) x00.

(** A word with its four bytes in reverse order, written with the package's
    own conversions: the bytes byte(w), byte(w>>8), byte(w>>16), byte(w>>24)
    packed big-endian. *)
Definition bswap32 (w : Z) : Z :=
  from_bytes (U32.to_byte w) (U32.to_byte (U32.shr w 8))
             (U32.to_byte (U32.shr w 16)) (U32.to_byte (U32.shr w 24)).

(** * Running programs *)

Lemma run_bind {A B : Type} (c : M A) (f : A -> M B) (m : mem) :
  (c ≫= f) m =
  match c m with
  | (Ok a, m') => f a m'
  | (Panicked p, m') => (Panicked p, m')
  | (OutOfFuel, m') => (OutOfFuel, m')
  end.
Proof. reflexivity. Qed.

Lemma run_bind_ok {A B : Type} (c : M A) (f : A -> M B) (m m' : mem) (a : A) :
  c m = (Ok a, m') -> (c ≫= f) m = f a m'.
Proof. intros H. rewrite run_bind, H. reflexivity. Qed.

Lemma run_ret {A : Type} (a : A) (m : mem) : (mret a : M A) m = (Ok a, m).
Proof. reflexivity. Qed.

Lemma buf_lookup (m : mem) (s : slice) (l : list byte) :
  m !! s = Some l -> buf m s = l.
Proof. intros H. unfold buf. rewrite H. reflexivity. Qed.

Lemma buf_insert_eq (m : mem) (s : slice) (l : list byte) :
  buf (<[s := l]> m) s = l.
Proof. unfold buf. rewrite lookup_insert_eq. reflexivity. Qed.

Lemma buf_insert_ne (m : mem) (s s' : slice) (l : list byte) :
  s ≠ s' -> buf (<[s := l]> m) s' = buf m s'.
Proof. intros H. unfold buf. rewrite lookup_insert_ne by done. reflexivity. Qed.

Lemma len_run (m : mem) (s : slice) :
  len s m = (Ok (Z.of_nat (length (buf m s))), m).
Proof. reflexivity. Qed.

(** Reading and writing at offset [k] behind a known prefix. *)
Lemma load_app (m : mem) (s : slice) (pre l : list byte) (i k : Z) (b : byte) :
  buf m s = pre ++ l -> i = Z.of_nat (length pre) + k -> 0 <= k ->
  l !! Z.to_nat k = Some b ->
  load s i m = (Ok b, m).
Proof.
  intros Hb -> Hk Hl. unfold load.
  destruct (Z.leb_spec 0 (Z.of_nat (length pre) + k)); [|lia].
  rewrite Hb.
  replace (Z.to_nat (Z.of_nat (length pre) + k)) with (length pre + Z.to_nat k)%nat by lia.
  rewrite lookup_app_r by lia.
  replace (length pre + Z.to_nat k - length pre)%nat with (Z.to_nat k) by lia.
  rewrite Hl. reflexivity.
Qed.

Lemma store_app (m : mem) (s : slice) (pre l : list byte) (i k : Z) (b : byte) :
  buf m s = pre ++ l -> i = Z.of_nat (length pre) + k ->
  0 <= k < Z.of_nat (length l) ->
  store s i b m = (Ok tt, <[s := pre ++ <[Z.to_nat k := b]> l]> m).
Proof.
  intros Hb -> Hk. unfold store. rewrite Hb, length_app.
  destruct (Z.leb_spec 0 (Z.of_nat (length pre) + k)); [|lia].
  destruct (Z.ltb_spec (Z.of_nat (length pre) + k)
              (Z.of_nat (length pre + length l))); [|lia].
  simpl.
  replace (Z.to_nat (Z.of_nat (length pre) + k)) with (length pre + Z.to_nat k)%nat by lia.
  rewrite insert_app_r. reflexivity.
Qed.

Lemma chk4len_ok (l : Z) (m : mem) :
  4 <= l -> l mod 4 = 0 -> chk4len l m = (Ok (l - 1), m).
Proof.
  intros H4 Hm. unfold chk4len.
  change 3 with (Z.ones 2). rewrite Z.land_ones by lia. change (2 ^ 2) with 4.
  rewrite Hm. destruct (Z.ltb_spec l 4); [lia|]. reflexivity.
Qed.

Lemma chk4len_fail (l : Z) (m : mem) :
  l < 4 \/ l mod 4 <> 0 -> chk4len l m = (Panicked (PanicMsg em), m).
Proof.
  intros H. unfold chk4len.
  change 3 with (Z.ones 2). rewrite Z.land_ones by lia. change (2 ^ 2) with 4.
  destruct (Z.ltb_spec l 4); [reflexivity|].
  destruct (Z.eqb_spec (l mod 4) 0); [lia|]. reflexivity.
Qed.

Lemma load_app' (m : mem) (s : slice) (c pre l : list byte) (i k : Z) (b : byte) :
  buf m s = c -> c = pre ++ l -> i = Z.of_nat (length pre) + k -> 0 <= k ->
  l !! Z.to_nat k = Some b ->
  load s i m = (Ok b, m).
Proof. intros <- H. by apply load_app. Qed.

Lemma store_app' (m : mem) (s : slice) (c pre l l' : list byte) (i k : Z) (b : byte) :
  buf m s = c -> c = pre ++ l -> i = Z.of_nat (length pre) + k ->
  0 <= k < Z.of_nat (length l) ->
  l' = <[Z.to_nat k := b]> l ->
  store s i b m = (Ok tt, <[s := pre ++ l']> m).
Proof. intros <- H ? ? ->. by apply store_app. Qed.

Ltac solve_len := repeat (rewrite ?length_app; cbn [length]); lia.
Ltac solve_split := repeat (rewrite <- ?app_assoc; cbn [app]); reflexivity.

Ltac run_load Hb pre k :=
  erewrite run_bind_ok;
  [| eapply (load_app' _ _ _ pre _ _ k);
     [ first [apply buf_insert_eq | exact Hb]
     | solve_split | solve_len | lia | reflexivity ] ].

Ltac run_store Hb pre k :=
  erewrite run_bind_ok;
  [| eapply (store_app' _ _ _ pre _ _ _ k);
     [ first [apply buf_insert_eq | exact Hb]
     | solve_split | solve_len | solve_len | simpl; reflexivity ] ];
  rewrite ?insert_insert_eq.

Lemma AsLEBE_loop_run (fuel : nat) : forall (d : slice) (m : mem) (pre rest : list byte),
  m !! d = Some (pre ++ rest) ->
  (4 <= length (pre ++ rest))%nat ->
  Z.of_nat (length (pre ++ rest)) mod 4 = 0 ->
  Z.of_nat (length pre) mod 4 = 0 ->
  (length rest < 4 * fuel)%nat ->
  AsLEBE_loop fuel d (Z.of_nat (length pre)) m
  = (Ok tt, <[d := pre ++ Spec.ReverseBytesPerWord rest]> m).
Proof.
  induction fuel as [|fuel IH]; intros d m pre rest Hm H4 Hl Hp Hf; [lia|].
  pose proof (buf_lookup _ _ _ Hm) as Hb.
  cbn [AsLEBE_loop].
  erewrite run_bind_ok by apply len_run.
  erewrite run_bind_ok by (apply chk4len_ok; rewrite Hb; lia).
  rewrite Hb.
  rewrite length_app in Hl.
  destruct rest as [|a0 [|a1 [|a2 [|a3 rest]]]]; simpl in Hl;
    try (exfalso; Z.div_mod_to_equations; lia).
  - destruct (Z.ltb_spec (Z.of_nat (length pre)) (Z.of_nat (length (pre ++ [])) - 1)) as [Hlt|_].
    { rewrite length_app in Hlt. simpl in Hlt. lia. }
    rewrite run_ret. f_equal. symmetry. apply insert_id.
    rewrite Hm. reflexivity.
  - destruct (Z.ltb_spec (Z.of_nat (length pre))
                (Z.of_nat (length (pre ++ a0 :: a1 :: a2 :: a3 :: rest)) - 1)) as [_|Hge].
    2:{ rewrite length_app in Hge. simpl in Hge. lia. }
    run_load Hb pre 3. run_load Hb pre 2. run_load Hb pre 1. run_load Hb pre 0.
    run_store Hb pre 0. run_store Hb pre 1. run_store Hb pre 2. run_store Hb pre 3.
    replace (Z.of_nat (length pre) + 4) with (Z.of_nat (length (pre ++ [a3; a2; a1; a0])))
      by solve_len.
    rewrite (IH d _ (pre ++ [a3; a2; a1; a0]) rest).
    + rewrite insert_insert_eq. f_equal. f_equal.
      unfold Spec.ReverseBytesPerWord. simpl. rewrite <- app_assoc. reflexivity.
    + rewrite lookup_insert_eq. f_equal. solve_split.
    + revert H4. solve_len.
    + revert Hl. rewrite !length_app. simpl. intros. Z.div_mod_to_equations. lia.
    + rewrite length_app. simpl. Z.div_mod_to_equations. lia.
    + simpl in Hf. lia.
Qed.

Lemma AsLELE_loop_run (fuel : nat) : forall (d : slice) (m : mem) (pre mid post : list byte),
  m !! d = Some (pre ++ mid ++ post) ->
  (length mid < 2 * fuel)%nat ->
  AsLELE_loop fuel d (Z.of_nat (length pre))
    (Z.of_nat (length pre) + Z.of_nat (length mid) - 1) m
  = (Ok tt, <[d := pre ++ Spec.ReverseWhole mid ++ post]> m).
Proof.
  unfold Spec.ReverseWhole.
  induction fuel as [|fuel IH]; intros d m pre mid post Hm Hf; [lia|].
  pose proof (buf_lookup _ _ _ Hm) as Hb.
  cbn [AsLELE_loop].
  destruct mid as [|a mid].
  { destruct (Z.ltb_spec (Z.of_nat (length pre))
                (Z.of_nat (length pre) + Z.of_nat (length (@nil byte)) - 1)) as [Hlt|_].
    { simpl in Hlt. lia. }
    rewrite run_ret. f_equal. symmetry. by apply insert_id. }
  destruct mid as [|c mid _] using rev_ind.
  { destruct (Z.ltb_spec (Z.of_nat (length pre))
                (Z.of_nat (length pre) + Z.of_nat (length [a]) - 1)) as [Hlt|_].
    { simpl in Hlt. lia. }
    rewrite run_ret. f_equal. symmetry. by apply insert_id. }
  destruct (Z.ltb_spec (Z.of_nat (length pre))
              (Z.of_nat (length pre) + Z.of_nat (length (a :: mid ++ [c])) - 1)) as [_|Hge].
  2:{ revert Hge. solve_len. }
  run_load Hb (pre ++ a :: mid) 0.
  run_load Hb pre 0.
  run_store Hb pre 0.
  run_store Hb (pre ++ c :: mid) 0.
  replace (Z.of_nat (length pre) + 1) with (Z.of_nat (length (pre ++ [c]))) by solve_len.
  replace (Z.of_nat (length pre) + Z.of_nat (length (a :: mid ++ [c])) - 1 - 1)
    with (Z.of_nat (length (pre ++ [c])) + Z.of_nat (length mid) - 1) by solve_len.
  rewrite (IH d _ (pre ++ [c]) mid (a :: post)).
  - rewrite insert_insert_eq. f_equal. f_equal.
    rewrite reverse_cons, reverse_snoc. solve_split.
  - rewrite lookup_insert_eq. f_equal. solve_split.
  - revert Hf. solve_len.
Qed.

(** ** Lists of whole 4-byte groups *)

Lemma length4_inv {A : Type} (l : list A) (k : nat) :
  length l = (4 * S k)%nat ->
  exists a0 a1 a2 a3 l', l = a0 :: a1 :: a2 :: a3 :: l' /\ length l' = (4 * k)%nat.
Proof.
  intros H. destruct l as [|a0 [|a1 [|a2 [|a3 l']]]]; simpl in H; try lia.
  exists a0, a1, a2, a3, l'. split; [reflexivity | lia].
Qed.

Lemma snoc4_inv {A : Type} (l : list A) (k : nat) :
  length l = (4 * S k)%nat ->
  exists l' c0 c1 c2 c3, l = l' ++ [c0; c1; c2; c3] /\ length l' = (4 * k)%nat.
Proof.
  intros H.
  assert (Hr : length (reverse l) = (4 * S k)%nat) by (by rewrite length_reverse).
  destruct (length4_inv _ _ Hr) as (a0 & a1 & a2 & a3 & l' & Hl & Hk).
  exists (reverse l'), a3, a2, a1, a0. split.
  - rewrite <- (reverse_involutive l), Hl.
    rewrite !reverse_cons. solve_split.
  - by rewrite length_reverse.
Qed.

Lemma groups_app (k : nat) : forall (l1 l2 : list byte),
  length l1 = (4 * k)%nat ->
  Spec.groups (l1 ++ l2) = Spec.groups l1 ++ Spec.groups l2.
Proof.
  induction k as [|k IH]; intros l1 l2 H.
  - destruct l1; [reflexivity | simpl in H; lia].
  - destruct (length4_inv _ _ H) as (a0 & a1 & a2 & a3 & l' & -> & Hk).
    simpl. f_equal. by apply IH.
Qed.

Lemma concat_groups (k : nat) : forall (l : list byte),
  length l = (4 * k)%nat -> concat (Spec.groups l) = l.
Proof.
  induction k as [|k IH]; intros l H.
  - destruct l; [reflexivity | simpl in H; lia].
  - destruct (length4_inv _ _ H) as (a0 & a1 & a2 & a3 & l' & -> & Hk).
    simpl. do 4 f_equal. by apply IH.
Qed.

Lemma groups_length (k : nat) : forall (l : list byte),
  length l = (4 * k)%nat ->
  length (Spec.groups l) = k /\ Forall (fun g => length g = 4%nat) (Spec.groups l).
Proof.
  induction k as [|k IH]; intros l H.
  - destruct l; [by split | simpl in H; lia].
  - destruct (length4_inv _ _ H) as (a0 & a1 & a2 & a3 & l' & -> & Hk).
    destruct (IH _ Hk) as [IH1 IH2]. simpl. split; [by f_equal|].
    by constructor.
Qed.

Lemma groups_concat (gs : list (list byte)) :
  Forall (fun g => length g = 4%nat) gs -> Spec.groups (concat gs) = gs.
Proof.
  induction 1 as [|g gs Hg _ IH]; [reflexivity|].
  destruct g as [|a0 [|a1 [|a2 [|a3 [|? ?]]]]]; simpl in Hg; try lia.
  simpl. by rewrite IH.
Qed.

Lemma length_concat_reverse {A : Type} (gs : list (list A)) :
  length (concat (reverse gs)) = length (concat gs).
Proof.
  induction gs as [|g gs IH]; [reflexivity|].
  rewrite reverse_cons, concat_app. simpl. rewrite !length_app, IH. simpl. lia.
Qed.

Lemma ReverseWordOrder_length (k : nat) (l : list byte) :
  length l = (4 * k)%nat -> length (Spec.ReverseWordOrder l) = (4 * k)%nat.
Proof.
  intros H. unfold Spec.ReverseWordOrder.
  rewrite length_concat_reverse, (concat_groups k) by done. done.
Qed.

Lemma ReverseWordOrder_ends (k : nat) (a0 a1 a2 a3 c0 c1 c2 c3 : byte) (mid : list byte) :
  length mid = (4 * k)%nat ->
  Spec.ReverseWordOrder (a0 :: a1 :: a2 :: a3 :: mid ++ [c0; c1; c2; c3])
  = c0 :: c1 :: c2 :: c3 :: Spec.ReverseWordOrder mid ++ [a0; a1; a2; a3].
Proof.
  intros H. unfold Spec.ReverseWordOrder. cbn [Spec.groups].
  rewrite (groups_app k) by done. cbn [Spec.groups].
  rewrite reverse_cons, reverse_app. simpl. rewrite concat_app. simpl. reflexivity.
Qed.

Lemma AsBELE_loop_run (fuel : nat) : forall (d : slice) (m : mem) (k : nat)
    (pre mid post : list byte),
  m !! d = Some (pre ++ mid ++ post) ->
  length mid = (4 * k)%nat ->
  (k < fuel)%nat ->
  AsBELE_loop fuel d (Z.of_nat (length pre))
    (Z.of_nat (length pre) + Z.of_nat (length mid) - 1) m
  = (Ok tt, <[d := pre ++ Spec.ReverseWordOrder mid ++ post]> m).
Proof.
  induction fuel as [|fuel IH]; intros d m k pre mid post Hm Hk Hf; [lia|].
  pose proof (buf_lookup _ _ _ Hm) as Hb.
  cbn [AsBELE_loop].
  destruct k as [|k].
  { destruct mid; [|simpl in Hk; lia].
    destruct (Z.ltb_spec (Z.of_nat (length pre))
                (Z.of_nat (length pre) + Z.of_nat (length (@nil byte)) - 1)) as [Hlt|_].
    { simpl in Hlt. lia. }
    rewrite run_ret. f_equal. symmetry. by apply insert_id. }
  destruct (length4_inv _ _ Hk) as (a0 & a1 & a2 & a3 & mid1 & -> & Hk1).
  destruct (Z.ltb_spec (Z.of_nat (length pre))
              (Z.of_nat (length pre)
               + Z.of_nat (length (a0 :: a1 :: a2 :: a3 :: mid1)) - 1)) as [_|Hge].
  2:{ revert Hge. solve_len. }
  destruct k as [|k].
  - (* the middle group is swapped with itself *)
    destruct mid1; [|simpl in Hk1; lia].
    run_load Hb pre 0. run_load Hb pre 1. run_load Hb pre 2. run_load Hb pre 3.
    run_load Hb pre 0. run_load Hb pre 1. run_load Hb pre 2. run_load Hb pre 3.
    run_store Hb pre 0. run_store Hb pre 1. run_store Hb pre 2. run_store Hb pre 3.
    run_store Hb pre 0. run_store Hb pre 1. run_store Hb pre 2. run_store Hb pre 3.
    destruct fuel as [|fuel]; [lia|].
    cbn [AsBELE_loop].
    destruct (Z.ltb_spec (Z.of_nat (length pre) + 4)
                (Z.of_nat (length pre) + Z.of_nat (length [a0; a1; a2; a3]) - 1 - 4))
      as [Hlt|_].
    { revert Hlt. solve_len. }
    rewrite run_ret. f_equal.
  - destruct (snoc4_inv _ _ Hk1) as (mid & c0 & c1 & c2 & c3 & -> & Hk2).
    run_load Hb (pre ++ a0 :: a1 :: a2 :: a3 :: mid) 0. run_load Hb (pre ++ a0 :: a1 :: a2 :: a3 :: mid) 1. run_load Hb (pre ++ a0 :: a1 :: a2 :: a3 :: mid) 2. run_load Hb (pre ++ a0 :: a1 :: a2 :: a3 :: mid) 3.
    run_load Hb pre 0. run_load Hb pre 1. run_load Hb pre 2. run_load Hb pre 3.
    run_store Hb pre 0. run_store Hb pre 1. run_store Hb pre 2. run_store Hb pre 3.
    run_store Hb (pre ++ c0 :: c1 :: c2 :: c3 :: mid) 0. run_store Hb (pre ++ c0 :: c1 :: c2 :: c3 :: mid) 1. run_store Hb (pre ++ c0 :: c1 :: c2 :: c3 :: mid) 2. run_store Hb (pre ++ c0 :: c1 :: c2 :: c3 :: mid) 3.
    replace (Z.of_nat (length pre) + 4)
      with (Z.of_nat (length (pre ++ [c0; c1; c2; c3]))) by solve_len.
    replace (Z.of_nat (length pre)
             + Z.of_nat (length (a0 :: a1 :: a2 :: a3 :: mid ++ [c0; c1; c2; c3])) - 1 - 4)
      with (Z.of_nat (length (pre ++ [c0; c1; c2; c3])) + Z.of_nat (length mid) - 1)
      by solve_len.
    rewrite (IH d _ k (pre ++ [c0; c1; c2; c3]) mid (a0 :: a1 :: a2 :: a3 :: post)).
    + rewrite insert_insert_eq. f_equal. f_equal.
      rewrite (ReverseWordOrder_ends k) by done. solve_split.
    + rewrite lookup_insert_eq. f_equal. solve_split.
    + done.
    + lia.
Qed.

(** ** The helpers against their specification *)

Lemma len4_ok_dec (b : list byte) :
  len4_ok b \/ (Z.of_nat (length b) < 4 \/ Z.of_nat (length b) mod 4 <> 0).
Proof. unfold len4_ok. lia. Qed.

Lemma len4_ok_groups (b : list byte) :
  len4_ok b -> exists k : nat, length b = (4 * k)%nat /\ (1 <= k)%nat.
Proof.
  intros [H4 Hm]. exists (Z.to_nat (Z.of_nat (length b) / 4)).
  split; Z.div_mod_to_equations; lia.
Qed.

Lemma buf_lookup_nonempty (m : mem) (s : slice) :
  (0 < length (buf m s))%nat -> m !! s = Some (buf m s).
Proof. unfold buf. destruct (m !! s); simpl; [done | lia]. Qed.

Lemma run_bind_fail {A B : Type} (c : M A) (f : A -> M B) (m m' : mem) (p : panic) :
  c m = (Panicked p, m') -> (c ≫= f) m = (Panicked p, m').
Proof. intros H. rewrite run_bind, H. reflexivity. Qed.

Lemma AsBELE_run (d : slice) (m : mem) :
  len4_ok (buf m d) ->
  AsBELE d m = (Ok d, <[d := Spec.ReverseWordOrder (buf m d)]> m).
Proof.
  intros Hok. destruct (len4_ok_groups _ Hok) as (k & Hk & Hk1).
  destruct Hok as [H4 Hm].
  assert (Hd : m !! d = Some (buf m d)) by (apply buf_lookup_nonempty; lia).
  unfold AsBELE.
  erewrite run_bind_ok by apply len_run.
  erewrite run_bind_ok by (by apply chk4len_ok).
  erewrite run_bind_ok; [reflexivity|].
  pose proof (AsBELE_loop_run (S (Z.to_nat (Z.of_nat (length (buf m d))))) d m k
                [] (buf m d) []) as H.
  simpl in H. rewrite !app_nil_r in H. apply H; [done | done | lia].
Qed.

Lemma AsBELE_fail (d : slice) (m : mem) :
  ~ len4_ok (buf m d) -> AsBELE d m = (Panicked (PanicMsg em), m).
Proof.
  intros Hn. unfold AsBELE.
  erewrite run_bind_ok by apply len_run.
  erewrite run_bind_fail; [reflexivity|].
  apply chk4len_fail. unfold len4_ok in Hn. lia.
Qed.

Lemma AsLELE_run (d : slice) (m : mem) :
  len4_ok (buf m d) ->
  AsLELE d m = (Ok d, <[d := Spec.ReverseWhole (buf m d)]> m).
Proof.
  intros [H4 Hm].
  assert (Hd : m !! d = Some (buf m d)) by (apply buf_lookup_nonempty; lia).
  unfold AsLELE.
  erewrite run_bind_ok by apply len_run.
  erewrite run_bind_ok by (by apply chk4len_ok).
  erewrite run_bind_ok; [reflexivity|].
  pose proof (AsLELE_loop_run (S (Z.to_nat (Z.of_nat (length (buf m d))))) d m
                [] (buf m d) []) as H.
  simpl in H. rewrite !app_nil_r in H. apply H; [done | lia].
Qed.

Lemma AsLELE_fail (d : slice) (m : mem) :
  ~ len4_ok (buf m d) -> AsLELE d m = (Panicked (PanicMsg em), m).
Proof.
  intros Hn. unfold AsLELE.
  erewrite run_bind_ok by apply len_run.
  erewrite run_bind_fail; [reflexivity|].
  apply chk4len_fail. unfold len4_ok in Hn. lia.
Qed.

Lemma AsLEBE_run (d : slice) (m : mem) :
  len4_ok (buf m d) ->
  AsLEBE d m = (Ok d, <[d := Spec.ReverseBytesPerWord (buf m d)]> m).
Proof.
  intros [H4 Hm].
  assert (Hd : m !! d = Some (buf m d)) by (apply buf_lookup_nonempty; lia).
  unfold AsLEBE.
  erewrite run_bind_ok by apply len_run.
  erewrite run_bind_ok; [reflexivity|].
  pose proof (AsLEBE_loop_run (S (Z.to_nat (Z.of_nat (length (buf m d))))) d m
                [] (buf m d)) as H.
  simpl in H. apply H; [done | lia | done | done | lia].
Qed.

Lemma AsLEBE_fail (d : slice) (m : mem) :
  ~ len4_ok (buf m d) -> AsLEBE d m = (Panicked (PanicMsg em), m).
Proof.
  intros Hn. unfold AsLEBE.
  erewrite run_bind_ok by apply len_run.
  erewrite run_bind_fail; [reflexivity|].
  cbn [AsLEBE_loop].
  erewrite run_bind_ok by apply len_run.
  erewrite run_bind_fail; [reflexivity|].
  apply chk4len_fail. unfold len4_ok in Hn. lia.
Qed.

(** ** Algebra of the three layouts *)

Lemma reverse_concat {A : Type} (gs : list (list A)) :
  reverse (concat gs) = concat (reverse <$> reverse gs).
Proof.
  induction gs as [|g gs IH]; [reflexivity|].
  simpl. rewrite reverse_app, IH, reverse_cons, fmap_app, concat_app.
  simpl. by rewrite app_nil_r.
Qed.

Lemma Forall_length_reverse_groups (gs : list (list byte)) :
  Forall (fun g => length g = 4%nat) gs ->
  Forall (fun g => length g = 4%nat) (reverse <$> gs).
Proof.
  intros H. apply Forall_fmap. eapply Forall_impl; [exact H|].
  intros g Hg. simpl. by rewrite length_reverse.
Qed.

Section Layouts.
Variable k : nat.
Variable b : list byte.
Hypothesis Hlen : length b = (4 * k)%nat.

Lemma ReverseWordOrder_involutive :
  Spec.ReverseWordOrder (Spec.ReverseWordOrder b) = b.
Proof.
  destruct (groups_length k b Hlen) as [_ HF].
  unfold Spec.ReverseWordOrder.
  rewrite groups_concat by (by apply Forall_reverse).
  by rewrite reverse_involutive, (concat_groups k).
Qed.

Lemma ReverseBytesPerWord_involutive :
  Spec.ReverseBytesPerWord (Spec.ReverseBytesPerWord b) = b.
Proof.
  destruct (groups_length k b Hlen) as [_ HF].
  unfold Spec.ReverseBytesPerWord.
  rewrite groups_concat by (by apply Forall_length_reverse_groups).
  rewrite <- list_fmap_compose.
  assert (Hid : (reverse ∘ reverse) <$> Spec.groups b = Spec.groups b).
  { clear. induction (Spec.groups b) as [|g gs IH]; [reflexivity|].
    rewrite fmap_cons, IH. simpl. by rewrite reverse_involutive. }
  by rewrite Hid, (concat_groups k).
Qed.

Lemma ReverseBytesPerWord_ReverseWordOrder :
  Spec.ReverseBytesPerWord (Spec.ReverseWordOrder b) = Spec.ReverseWhole b.
Proof.
  destruct (groups_length k b Hlen) as [_ HF].
  unfold Spec.ReverseBytesPerWord, Spec.ReverseWordOrder, Spec.ReverseWhole.
  rewrite groups_concat by (by apply Forall_reverse).
  rewrite <- reverse_concat. by rewrite (concat_groups k).
Qed.

Lemma ReverseWordOrder_ReverseBytesPerWord :
  Spec.ReverseWordOrder (Spec.ReverseBytesPerWord b) = Spec.ReverseWhole b.
Proof.
  destruct (groups_length k b Hlen) as [_ HF].
  unfold Spec.ReverseBytesPerWord, Spec.ReverseWordOrder, Spec.ReverseWhole.
  rewrite groups_concat by (by apply Forall_length_reverse_groups).
  rewrite <- fmap_reverse, <- reverse_concat. by rewrite (concat_groups k).
Qed.

Lemma ReverseBytesPerWord_length :
  length (Spec.ReverseBytesPerWord b) = (4 * k)%nat.
Proof.
  rewrite <- Hlen. rewrite <- (concat_groups k b Hlen) at 2.
  unfold Spec.ReverseBytesPerWord.
  induction (Spec.groups b) as [|g gs IH]; [reflexivity|].
  rewrite fmap_cons. simpl. by rewrite !length_app, length_reverse, IH.
Qed.
End Layouts.

Lemma len4_ok_same_length (b b' : list byte) :
  length b' = length b -> len4_ok b -> len4_ok b'.
Proof. unfold len4_ok. intros ->. done. Qed.

Lemma len4_ok_ReverseWordOrder (b : list byte) :
  len4_ok b -> len4_ok (Spec.ReverseWordOrder b).
Proof.
  intros H. destruct (len4_ok_groups _ H) as (k & Hk & _).
  apply (len4_ok_same_length b); [|done].
  by rewrite (ReverseWordOrder_length k), Hk.
Qed.

Lemma len4_ok_ReverseBytesPerWord (b : list byte) :
  len4_ok b -> len4_ok (Spec.ReverseBytesPerWord b).
Proof.
  intros H. destruct (len4_ok_groups _ H) as (k & Hk & _).
  apply (len4_ok_same_length b); [|done].
  by rewrite (ReverseBytesPerWord_length k), Hk.
Qed.

Lemma len4_ok_ReverseWhole (b : list byte) :
  len4_ok b -> len4_ok (Spec.ReverseWhole b).
Proof.
  apply len4_ok_same_length. unfold Spec.ReverseWhole. apply length_reverse.
Qed.

(** ** Bytes and words *)

Lemma of_byte_range (b : byte) : 0 <= U32.of_byte b < 256.
Proof.
  unfold U32.of_byte. pose proof (Byte.to_N_bounded b). lia.
Qed.

Lemma of_byte_zero (b : byte) : U32.of_byte b = 0 <-> b = x00.
Proof.
  split; [|intros ->; reflexivity].
  unfold U32.of_byte. intros H.
  assert (Hn : Byte.to_N b = Byte.to_N x00) by (simpl; lia).
  assert (Hs : Some b = Some x00) by (rewrite <- !Byte.of_to_N; by rewrite Hn).
  by inversion Hs.
Qed.

Lemma to_byte_of_byte (b : byte) (x : Z) :
  x mod 256 = U32.of_byte b -> U32.to_byte x = b.
Proof.
  intros H. unfold U32.to_byte. rewrite H. unfold U32.of_byte.
  by rewrite N2Z.id, Byte.of_to_N.
Qed.

Lemma of_byte_to_byte (x : Z) : U32.of_byte (U32.to_byte x) = x mod 256.
Proof.
  unfold U32.to_byte, U32.of_byte.
  assert (Hr : 0 <= x mod 256 < 256) by (apply Z.mod_pos_bound; lia).
  destruct (Byte.of_N (Z.to_N (x mod 256))) as [b|] eqn:E.
  - apply Byte.to_of_N in E. rewrite E. lia.
  - exfalso. pose proof (Byte.to_of_N_option_map (Z.to_N (x mod 256))) as H.
    rewrite E in H. simpl in H.
    destruct (N.leb_spec (Z.to_N (x mod 256)) 255); [discriminate | lia].
Qed.

Lemma lor_disjoint (a y : Z) (n : Z) :
  0 <= n -> 0 <= y < 2 ^ n -> Z.lor (a * 2 ^ n) y = a * 2 ^ n + y.
Proof.
  intros Hn Hy. symmetry. apply Z.add_nocarry_lor.
  apply Z.bits_inj'. intros i Hi.
  rewrite Z.land_spec, Z.bits_0.
  destruct (Z.lt_ge_cases i n) as [Hlt|Hge].
  - rewrite Z.mul_pow2_bits_low by lia. reflexivity.
  - assert (Hb : Z.testbit y i = false).
    { destruct (Z.eq_dec y 0) as [->|Hy0]; [apply Z.bits_0|].
      apply Z.bits_above_log2; [lia|].
      apply Z.lt_le_trans with n; [|lia].
      apply Z.log2_lt_pow2; lia. }
    rewrite Hb. apply andb_false_r.
Qed.

Lemma from_bytes_word (b0 b1 b2 b3 : byte) :
  from_bytes b0 b1 b2 b3 = Spec.word_of_bytes b0 b1 b2 b3.
Proof.
  unfold from_bytes, Spec.word_of_bytes, U32.shl, U32.wrap, U32.modulus.
  pose proof (of_byte_range b0) as H0. pose proof (of_byte_range b1) as H1.
  pose proof (of_byte_range b2) as H2. pose proof (of_byte_range b3) as H3.
  generalize dependent (U32.of_byte b0). generalize dependent (U32.of_byte b1).
  generalize dependent (U32.of_byte b2). generalize dependent (U32.of_byte b3).
  intros B3 H3 B2 H2 B1 H1 B0 H0.
  rewrite !Z.shiftl_mul_pow2 by lia.
  assert (E24 : 2 ^ 24 = 16777216) by reflexivity.
  assert (E16 : 2 ^ 16 = 65536) by reflexivity.
  assert (E8 : 2 ^ 8 = 256) by reflexivity.
  assert (E32 : 2 ^ 32 = 4294967296) by reflexivity.
  rewrite !Z.mod_small by lia.
  rewrite (lor_disjoint B0 (B1 * 2 ^ 16) 24) by lia.
  replace (B0 * 2 ^ 24 + B1 * 2 ^ 16) with ((B0 * 256 + B1) * 2 ^ 16) by lia.
  rewrite (lor_disjoint (B0 * 256 + B1) (B2 * 2 ^ 8) 16) by lia.
  replace ((B0 * 256 + B1) * 2 ^ 16 + B2 * 2 ^ 8)
    with ((B0 * 65536 + B1 * 256 + B2) * 2 ^ 8) by lia.
  rewrite (lor_disjoint (B0 * 65536 + B1 * 256 + B2) B3 8) by lia.
  lia.
Qed.

Lemma word_of_bytes_range (b0 b1 b2 b3 : byte) :
  U32.in_range (Spec.word_of_bytes b0 b1 b2 b3).
Proof.
  unfold U32.in_range, U32.modulus, Spec.word_of_bytes.
  pose proof (of_byte_range b0). pose proof (of_byte_range b1).
  pose proof (of_byte_range b2). pose proof (of_byte_range b3).
  assert (E24 : 2 ^ 24 = 16777216) by reflexivity.
  assert (E16 : 2 ^ 16 = 65536) by reflexivity.
  assert (E8 : 2 ^ 8 = 256) by reflexivity.
  assert (E32 : 2 ^ 32 = 4294967296) by reflexivity.
  lia.
Qed.

Lemma word_of_bytes_zero (b0 b1 b2 b3 : byte) :
  Spec.word_of_bytes b0 b1 b2 b3 = 0 <->
  b0 = x00 /\ b1 = x00 /\ b2 = x00 /\ b3 = x00.
Proof.
  rewrite <- !of_byte_zero. unfold Spec.word_of_bytes.
  pose proof (of_byte_range b0). pose proof (of_byte_range b1).
  pose proof (of_byte_range b2). pose proof (of_byte_range b3).
  assert (E24 : 2 ^ 24 = 16777216) by reflexivity.
  assert (E16 : 2 ^ 16 = 65536) by reflexivity.
  assert (E8 : 2 ^ 8 = 256) by reflexivity.
  lia.
Qed.

Lemma bytes_of_word_of_bytes (b0 b1 b2 b3 : byte) :
  Spec.bytes_of_word (Spec.word_of_bytes b0 b1 b2 b3) = [b0; b1; b2; b3].
Proof.
  unfold Spec.bytes_of_word, Spec.word_of_bytes.
  pose proof (of_byte_range b0). pose proof (of_byte_range b1).
  pose proof (of_byte_range b2). pose proof (of_byte_range b3).
  assert (E24 : 2 ^ 24 = 16777216) by reflexivity.
  assert (E16 : 2 ^ 16 = 65536) by reflexivity.
  assert (E8 : 2 ^ 8 = 256) by reflexivity.
  rewrite E24, E16, E8.
  repeat f_equal; apply to_byte_of_byte; Z.div_mod_to_equations; lia.
Qed.

Lemma word_of_bytes_of_word (w : Z) :
  U32.in_range w ->
  Spec.word_of_bytes (U32.to_byte (w / 2 ^ 24)) (U32.to_byte (w / 2 ^ 16))
    (U32.to_byte (w / 2 ^ 8)) (U32.to_byte w) = w.
Proof.
  unfold U32.in_range, U32.modulus, Spec.word_of_bytes. intros H.
  rewrite !of_byte_to_byte.
  assert (E24 : 2 ^ 24 = 16777216) by reflexivity.
  assert (E16 : 2 ^ 16 = 65536) by reflexivity.
  assert (E8 : 2 ^ 8 = 256) by reflexivity.
  assert (E32 : 2 ^ 32 = 4294967296) by reflexivity.
  rewrite E24, E16, E8. rewrite E32 in H.
  Z.div_mod_to_equations. lia.
Qed.

(** ** NewKey against the key constructor of the specification *)

Lemma NewKey_loop_run (key : slice) (m : mem)
    (b0 b1 b2 b3 b4 b5 b6 b7 b8 b9 b10 b11 b12 b13 b14 b15 : byte) :
  buf m key = [b0; b1; b2; b3; b4; b5; b6; b7; b8; b9; b10; b11; b12; b13; b14; b15] ->
  NewKey_loop 5 key 0 TeaKey_zero 0 m =
  (Ok (mkTeaKey (from_bytes b0 b1 b2 b3) (from_bytes b4 b5 b6 b7)
         (from_bytes b8 b9 b10 b11) (from_bytes b12 b13 b14 b15),
       Z.lor (Z.lor (Z.lor (Z.lor 0 (from_bytes b0 b1 b2 b3)) (from_bytes b4 b5 b6 b7))
                (from_bytes b8 b9 b10 b11)) (from_bytes b12 b13 b14 b15)), m).
Proof.
  intros Hb.
  cbn [NewKey_loop].
  change (0 <? 16) with true. cbv iota.
  run_load Hb (@nil byte) 0. run_load Hb (@nil byte) 1.
  run_load Hb (@nil byte) 2. run_load Hb (@nil byte) 3.
  change (Z.shiftr 0 2) with 0.
  erewrite run_bind_ok by reflexivity. erewrite run_bind_ok by reflexivity.
  change (0 + 4 <? 16) with true. cbv iota.
  run_load Hb (@nil byte) 4. run_load Hb (@nil byte) 5.
  run_load Hb (@nil byte) 6. run_load Hb (@nil byte) 7.
  change (Z.shiftr (0 + 4) 2) with 1.
  erewrite run_bind_ok by reflexivity. erewrite run_bind_ok by reflexivity.
  change (0 + 4 + 4 <? 16) with true. cbv iota.
  run_load Hb (@nil byte) 8. run_load Hb (@nil byte) 9.
  run_load Hb (@nil byte) 10. run_load Hb (@nil byte) 11.
  change (Z.shiftr (0 + 4 + 4) 2) with 2.
  erewrite run_bind_ok by reflexivity. erewrite run_bind_ok by reflexivity.
  change (0 + 4 + 4 + 4 <? 16) with true. cbv iota.
  run_load Hb (@nil byte) 12. run_load Hb (@nil byte) 13.
  run_load Hb (@nil byte) 14. run_load Hb (@nil byte) 15.
  change (Z.shiftr (0 + 4 + 4 + 4) 2) with 3.
  erewrite run_bind_ok by reflexivity. erewrite run_bind_ok by reflexivity.
  change (0 + 4 + 4 + 4 + 4 <? 16) with false. cbv iota.
  reflexivity.
Qed.

Lemma NewKey_run (key : slice) (m : mem) :
  NewKey key m =
  match Spec.ConstructKey (buf m key) with
  | Some k => (Ok k, m)
  | None => (Panicked (PanicMsg em), m)
  end.
Proof.
  unfold NewKey, Spec.ConstructKey.
  erewrite run_bind_ok by apply len_run.
  destruct (Nat.eqb_spec (length (buf m key)) 16) as [H16|Hne].
  2:{ destruct (Z.eqb_spec (Z.of_nat (length (buf m key))) 16); [lia|]. reflexivity. }
  rewrite H16. cbn [negb Z.of_nat].
  destruct (buf m key) as [|b0 [|b1 [|b2 [|b3 [|b4 [|b5 [|b6 [|b7 [|b8 [|b9 [|b10
    [|b11 [|b12 [|b13 [|b14 [|b15 [|? ?]]]]]]]]]]]]]]]]] eqn:Hb; try discriminate H16.
  change (Z.of_nat 16 =? 16) with true. cbn [negb].
  erewrite run_bind_ok by (by apply NewKey_loop_run).
  cbn [fst snd k0 k1 k2 k3 TeaKey_zero Spec.words_of_bytes lookup_total list_lookup_total].
  rewrite !from_bytes_word. rewrite Z.lor_0_l.
  match goal with |- context [?x =? 0] => destruct (Z.eqb_spec x 0) end; reflexivity.
Qed.

(** ** Word arithmetic that does not wrap *)

Lemma wrap_small (x : Z) : 0 <= x < 2 ^ 32 -> U32.wrap x = x.
Proof. intros H. unfold U32.wrap, U32.modulus. by apply Z.mod_small. Qed.

Lemma wrap_range (x : Z) : U32.in_range (U32.wrap x).
Proof. unfold U32.in_range, U32.wrap, U32.modulus. apply Z.mod_pos_bound. lia. Qed.

Lemma wrap_le (x : Z) : 0 <= x -> 0 <= U32.wrap x <= x.
Proof.
  intros H. unfold U32.wrap, U32.modulus. split.
  - apply Z.mod_pos_bound. lia.
  - apply Z.mod_le; lia.
Qed.

Lemma add_small (a b : Z) : 0 <= a + b < 4294967296 -> U32.add a b = a + b.
Proof. intros H. unfold U32.add. apply wrap_small. change (2 ^ 32) with 4294967296. lia. Qed.

Lemma sub_small (a b : Z) : 0 <= a - b < 4294967296 -> U32.sub a b = a - b.
Proof. intros H. unfold U32.sub. apply wrap_small. change (2 ^ 32) with 4294967296. lia. Qed.

Lemma shr2_mul4 (j : Z) : U32.shr (4 * j) 2 = j.
Proof.
  unfold U32.shr. rewrite Z.shiftr_div_pow2 by lia. change (2 ^ 2) with 4.
  Z.div_mod_to_equations. lia.
Qed.

Lemma land3_mod4 (x : Z) : Z.land x 3 = x mod 4.
Proof. change 3 with (Z.ones 2). rewrite Z.land_ones by lia. reflexivity. Qed.

(** ** Reading and writing the working vector *)

Lemma aget_app (v pre l : list Z) (i k x : Z) (m : mem) :
  v = pre ++ l -> i = Z.of_nat (length pre) + k -> 0 <= k ->
  l !! Z.to_nat k = Some x ->
  aget v i m = (Ok x, m).
Proof.
  intros -> -> Hk Hl. unfold aget.
  destruct (Z.leb_spec 0 (Z.of_nat (length pre) + k)); [|lia].
  replace (Z.to_nat (Z.of_nat (length pre) + k)) with (length pre + Z.to_nat k)%nat by lia.
  rewrite lookup_app_r by lia.
  replace (length pre + Z.to_nat k - length pre)%nat with (Z.to_nat k) by lia.
  by rewrite Hl.
Qed.

Lemma aset_app (v pre l l' : list Z) (i k x : Z) (m : mem) :
  v = pre ++ l -> i = Z.of_nat (length pre) + k ->
  0 <= k < Z.of_nat (length l) ->
  l' = <[Z.to_nat k := x]> l ->
  aset v i x m = (Ok (pre ++ l'), m).
Proof.
  intros -> -> Hk ->. unfold aset. rewrite length_app.
  destruct (Z.leb_spec 0 (Z.of_nat (length pre) + k)); [|lia].
  destruct (Z.ltb_spec (Z.of_nat (length pre) + k)
              (Z.of_nat (length pre + length l))); [|lia].
  simpl.
  replace (Z.to_nat (Z.of_nat (length pre) + k)) with (length pre + Z.to_nat k)%nat by lia.
  by rewrite insert_app_r.
Qed.

(** Within the first [length ws] words of the vector. *)
Lemma aget_words (ws vpost : list Z) (i : Z) (j : nat) (m : mem) :
  i = Z.of_nat j -> (j < length ws)%nat ->
  aget (ws ++ vpost) i m = (Ok (ws !!! j), m).
Proof.
  intros -> Hj. unfold aget.
  destruct (Z.leb_spec 0 (Z.of_nat j)); [|lia].
  rewrite Nat2Z.id, lookup_app_l by done.
  destruct (lookup_lt_is_Some_2 ws j Hj) as [x Hx].
  rewrite Hx. by rewrite (list_lookup_total_correct _ _ _ Hx).
Qed.

Lemma aset_words (ws vpost : list Z) (i x : Z) (j : nat) (m : mem) :
  i = Z.of_nat j -> (j < length ws)%nat ->
  aset (ws ++ vpost) i x m = (Ok (<[j := x]> ws ++ vpost), m).
Proof.
  intros -> Hj. unfold aset. rewrite length_app.
  destruct (Z.leb_spec 0 (Z.of_nat j)); [|lia].
  destruct (Z.ltb_spec (Z.of_nat j) (Z.of_nat (length ws + length vpost))); [|lia].
  simpl. by rewrite Nat2Z.id, insert_app_l.
Qed.

Lemma words_of_bytes_length (c : nat) : forall b : list byte,
  length b = (4 * c)%nat -> length (Spec.words_of_bytes b) = c.
Proof.
  induction c as [|c IH]; intros b H.
  - destruct b; [reflexivity | simpl in H; lia].
  - destruct (length4_inv _ _ H) as (a0 & a1 & a2 & a3 & l' & -> & Hk).
    simpl. f_equal. by apply IH.
Qed.

Lemma load_words_run (fuel : nat) : forall (in_ : slice) (m : mem) (c : nat)
    (pre body tail : list byte) (vpre vmid vpost : list Z) (z : Z),
  buf m in_ = pre ++ body ++ tail ->
  length body = (4 * c)%nat ->
  length pre = (4 * length vpre)%nat ->
  length vmid = c ->
  z = Z.of_nat (length pre) + Z.of_nat (length body) ->
  z <= 208 ->
  (c < fuel)%nat ->
  load_words fuel in_ z (Z.of_nat (length pre)) (vpre ++ vmid ++ vpost) m
  = (Ok (vpre ++ Spec.words_of_bytes body ++ vpost), m).
Proof.
  induction fuel as [|fuel IH];
    intros in_ m c pre body tail vpre vmid vpost z Hb Hc Hp Hv Hz Hz' Hf; [lia|].
  cbn [load_words].
  destruct c as [|c].
  { destruct body; [|simpl in Hc; lia]. destruct vmid; [|simpl in Hv; lia].
    destruct (Z.ltb_spec (Z.of_nat (length pre)) z) as [Hlt|_]; [simpl in Hz; lia|].
    reflexivity. }
  destruct (length4_inv _ _ Hc) as (a0 & a1 & a2 & a3 & body' & -> & Hc').
  destruct vmid as [|x vmid]; [simpl in Hv; lia|].
  destruct (Z.ltb_spec (Z.of_nat (length pre)) z) as [_|Hge]; [|simpl in Hz; lia].
  assert (Hn : 0 <= Z.of_nat (length pre) <= 204) by (simpl in Hz; lia).
  rewrite !add_small by lia.
  run_load Hb pre 0. run_load Hb pre 1. run_load Hb pre 2. run_load Hb pre 3.
  erewrite run_bind_ok.
  2:{ eapply (aset_app _ vpre _ _ _ 0); [reflexivity | | simpl; lia | simpl; reflexivity].
      rewrite Hp, Nat2Z.inj_mul, shr2_mul4. simpl. lia. }
  replace (Z.of_nat (length pre) + 4)
    with (Z.of_nat (length (pre ++ [a0; a1; a2; a3]))) by solve_len.
  replace (vpre ++ from_bytes a0 a1 a2 a3 :: vmid ++ vpost)
    with ((vpre ++ [from_bytes a0 a1 a2 a3]) ++ vmid ++ vpost) by solve_split.
  rewrite (IH in_ m c (pre ++ [a0; a1; a2; a3]) body' tail _ vmid vpost z).
  - rewrite from_bytes_word. f_equal. f_equal. solve_split.
  - rewrite Hb. solve_split.
  - done.
  - revert Hp. solve_len.
  - simpl in Hv. lia.
  - revert Hz. solve_len.
  - done.
  - lia.
Qed.

Lemma to_byte_shr (k : Z) (n : Z) :
  0 <= n -> U32.to_byte (U32.shr k n) = U32.to_byte (k / 2 ^ n).
Proof. intros H. unfold U32.shr. by rewrite Z.shiftr_div_pow2. Qed.

Lemma store_words_run (fuel : nat) : forall (out : slice) (m : mem) (c : nat)
    (pre body tail : list byte) (vpre ws vpost : list Z),
  m !! out = Some (pre ++ body ++ tail) ->
  length body = (4 * c)%nat ->
  length pre = (4 * length vpre)%nat ->
  length ws = c ->
  U32.wrap (Z.of_nat (length pre + length body + length tail))
  = Z.of_nat (length pre) + Z.of_nat (length body) ->
  Z.of_nat (length pre) + Z.of_nat (length body) <= 208 ->
  (c < fuel)%nat ->
  store_words fuel out (vpre ++ ws ++ vpost) (Z.of_nat (length pre)) m
  = (Ok tt, <[out := pre ++ Spec.bytes_of_words ws ++ tail]> m).
Proof.
  induction fuel as [|fuel IH];
    intros out m c pre body tail vpre ws vpost Hm Hc Hp Hv Hz Hz' Hf; [lia|].
  pose proof (buf_lookup _ _ _ Hm) as Hb.
  cbn [store_words].
  erewrite run_bind_ok by apply len_run.
  rewrite Hb, !length_app, Nat.add_assoc, Hz.
  destruct c as [|c].
  { destruct body; [|simpl in Hc; lia]. destruct ws; [|simpl in Hv; lia].
    destruct (Z.ltb_spec (Z.of_nat (length pre))
                (Z.of_nat (length pre) + Z.of_nat (length (@nil byte)))) as [Hlt|_];
      [simpl in Hlt; lia|].
    rewrite run_ret. f_equal. symmetry. by apply insert_id. }
  destruct (length4_inv _ _ Hc) as (a0 & a1 & a2 & a3 & body' & -> & Hc').
  destruct ws as [|w ws]; [simpl in Hv; lia|].
  destruct (Z.ltb_spec (Z.of_nat (length pre))
              (Z.of_nat (length pre) + Z.of_nat (length (a0 :: a1 :: a2 :: a3 :: body'))))
    as [_|Hge]; [|simpl in Hge; lia].
  assert (Hn : 0 <= Z.of_nat (length pre) <= 204) by (simpl in Hz'; lia).
  rewrite !add_small by lia.
  erewrite run_bind_ok.
  2:{ eapply (aget_app _ vpre _ _ 0); [reflexivity | | lia | simpl; reflexivity].
      rewrite Hp, Nat2Z.inj_mul, shr2_mul4. simpl. lia. }
  run_store Hb pre 0. run_store Hb pre 1. run_store Hb pre 2. run_store Hb pre 3.
  replace (Z.of_nat (length pre) + 4)
    with (Z.of_nat (length (pre ++ Spec.bytes_of_word w)))
    by (unfold Spec.bytes_of_word; solve_len).
  replace (vpre ++ (w :: ws) ++ vpost) with ((vpre ++ [w]) ++ ws ++ vpost) by solve_split.
  rewrite (IH out _ c (pre ++ Spec.bytes_of_word w) body' tail (vpre ++ [w]) ws vpost).
  - rewrite insert_insert_eq. f_equal. f_equal.
    unfold Spec.bytes_of_words. rewrite fmap_cons. simpl. solve_split.
  - rewrite lookup_insert_eq. f_equal.
    rewrite !to_byte_shr by lia. unfold Spec.bytes_of_word. solve_split.
  - done.
  - revert Hp. unfold Spec.bytes_of_word. solve_len.
  - simpl in Hv. lia.
  - transitivity (U32.wrap (Z.of_nat (length pre
                    + length (a0 :: a1 :: a2 :: a3 :: body') + length tail))).
    + f_equal. unfold Spec.bytes_of_word. solve_len.
    + rewrite Hz. unfold Spec.bytes_of_word. solve_len.
  - revert Hz'. unfold Spec.bytes_of_word. solve_len.
  - lia.
Qed.

(** ** The round loops against the specification *)

Lemma MX_spec (y z sum kw : Z) : MX y z sum kw = Spec.MX y z sum kw.
Proof.
  unfold MX, Spec.MX, U32.add, U32.shl, U32.shr, U32.wrap, U32.modulus.
  by rewrite !Z.shiftr_div_pow2, !Z.shiftl_mul_pow2 by lia.
Qed.

Lemma round_index_spec (sum : Z) :
  Z.land (U32.shr sum 2) 3 = Spec.round_index sum.
Proof.
  unfold Spec.round_index, U32.shr. by rewrite Z.shiftr_div_pow2 by lia.
Qed.

Lemma round_index_range (sum : Z) : 0 <= Spec.round_index sum <= 3.
Proof.
  unfold Spec.round_index. rewrite land3_mod4.
  Z.div_mod_to_equations. lia.
Qed.

Lemma selector_range (p : nat) (e : Z) :
  0 <= e <= 3 -> 0 <= Spec.selector p e <= 3.
Proof.
  intros He. unfold Spec.selector. rewrite land3_mod4.
  assert (Ha : 0 <= Z.of_nat p mod 4 <= 3) by (Z.div_mod_to_equations; lia).
  generalize dependent (Z.of_nat p mod 4). intros a Ha.
  assert (Hcases : (a = 0 \/ a = 1 \/ a = 2 \/ a = 3)
                   /\ (e = 0 \/ e = 1 \/ e = 2 \/ e = 3)) by lia.
  destruct Hcases as [[-> | [-> | [-> | ->]]] [-> | [-> | [-> | ->]]]];
    vm_compute; split; discriminate.
Qed.

Lemma kget_run (k : TeaKey) (i : Z) (m : mem) :
  0 <= i <= 3 -> kget k i m = (Ok (Spec.key_word k i), m).
Proof.
  intros H.
  assert (Hc : i = 0 \/ i = 1 \/ i = 2 \/ i = 3) by lia.
  destruct Hc as [-> | [-> | [-> | ->]]]; reflexivity.
Qed.

Lemma enc_word_length (key : TeaKey) (sum e : Z) (vz : list Z * Z) (p : nat) :
  length (Spec.enc_word key sum e vz p).1 = length vz.1.
Proof. unfold Spec.enc_word. simpl. apply length_insert. Qed.

Lemma enc_words_length (key : TeaKey) (sum e : Z) (ps : list nat) :
  forall vz : list Z * Z,
  length (foldl (Spec.enc_word key sum e) vz ps).1 = length vz.1.
Proof.
  induction ps as [|p ps IH]; intros vz; [reflexivity|].
  simpl. by rewrite IH, enc_word_length.
Qed.

Lemma enc_round_length (key : TeaKey) (N : nat) (sum : Z) (vz : list Z * Z) :
  length (Spec.enc_round key N sum vz).1 = length vz.1.
Proof.
  unfold Spec.enc_round. simpl. by rewrite length_insert, enc_words_length.
Qed.

Lemma enc_rounds_length (key : TeaKey) (N r : nat) :
  forall (sum : Z) (vz : list Z * Z),
  length (Spec.enc_rounds key N r sum vz).1 = length vz.1.
Proof.
  induction r as [|r IH]; intros sum vz; [reflexivity|].
  simpl. by rewrite IH, enc_round_length.
Qed.

Lemma Encrypt_inner_run (fuel : nat) : forall (k : TeaKey) (N : nat) (sum e : Z)
    (m : mem) (ws vpost : list Z) (y z : Z) (p c : nat),
  length ws = N -> (2 <= N <= 52)%nat -> (p + c = N - 1)%nat -> (c < fuel)%nat ->
  0 <= e <= 3 ->
  exists y',
    Encrypt_inner fuel k (Z.of_nat N) sum e (mkLocals (ws ++ vpost) y z (Z.of_nat p)) m
    = (Ok (mkLocals ((foldl (Spec.enc_word k sum e) (ws, z) (seq p c)).1 ++ vpost) y'
             (foldl (Spec.enc_word k sum e) (ws, z) (seq p c)).2 (Z.of_nat (N - 1))), m).
Proof.
  induction fuel as [|fuel IH]; intros k N sum e m ws vpost y z p c HN HN' Hpc Hf He; [lia|].
  cbn [Encrypt_inner].
  rewrite sub_small by lia.
  destruct c as [|c].
  { destruct (Z.ltb_spec (Z.of_nat p) (Z.of_nat N - 1)) as [Hlt|_]; [lia|].
    exists y. simpl. rewrite run_ret. do 3 f_equal. lia. }
  destruct (Z.ltb_spec (Z.of_nat p) (Z.of_nat N - 1)) as [_|Hge]; [|lia].
  rewrite add_small by lia.
  erewrite run_bind_ok by (apply (aget_words _ _ _ (S p)); lia).
  erewrite run_bind_ok by (apply (aget_words _ _ _ p); lia).
  erewrite run_bind_ok by (apply kget_run; by apply selector_range).
  erewrite run_bind_ok by (apply (aset_words _ _ _ _ p); lia).
  erewrite run_bind_ok by (apply (aget_words _ _ _ p); rewrite ?length_insert; lia).
  replace (Z.of_nat p + 1) with (Z.of_nat (S p)) by lia.
  match goal with
  | |- context [Encrypt_inner fuel k _ sum e (mkLocals (?ws' ++ vpost) ?y1 ?z1 _) m] =>
      destruct (IH k N sum e m ws' vpost y1 z1 (S p) c) as [y' Hy'];
      [by rewrite length_insert | done | lia | lia | done |]
  end.
  exists y'. rewrite Hy'.
  cbn [seq foldl]. unfold Spec.enc_word at 3 6. cbn [fst snd].
  rewrite MX_spec. unfold U32.add, U32.wrap, U32.modulus. reflexivity.
Qed.

Lemma Encrypt_rounds_run (fuel : nat) : forall (k : TeaKey) (N : nat) (m : mem)
    (ws vpost : list Z) (y z p : Z) (r : nat) (sum : Z),
  length ws = N -> (2 <= N <= 52)%nat -> (r < fuel)%nat -> Z.of_nat r < 4294967296 ->
  exists y' p',
    Encrypt_rounds fuel k (Z.of_nat N) (Z.of_nat r) sum (mkLocals (ws ++ vpost) y z p) m
    = (Ok (mkLocals ((Spec.enc_rounds k N r sum (ws, z)).1 ++ vpost) y'
             (Spec.enc_rounds k N r sum (ws, z)).2 p'), m).
Proof.
  induction fuel as [|fuel IH]; intros k N m ws vpost y z p r sum HN HN' Hf Hr; [lia|].
  cbn [Encrypt_rounds].
  destruct r as [|r].
  { change (0 <? Z.of_nat 0) with false. cbv iota. exists y, p. reflexivity. }
  destruct (Z.ltb_spec 0 (Z.of_nat (S r))) as [_|Hge]; [|lia].
  rewrite (sub_small (Z.of_nat (S r)) 1) by lia.
  rewrite !(sub_small (Z.of_nat N) 1) by lia.
  rewrite round_index_spec.
  cbn [lv ly lz].
  destruct (Encrypt_inner_run (S (Z.to_nat (Z.of_nat N))) k N (U32.add sum delta)
              (Spec.round_index (U32.add sum delta)) m ws vpost y z 0 (N - 1))
    as [y1 Hy1]; [done | done | lia | lia | apply round_index_range |].
  erewrite run_bind_ok by exact Hy1.
  set (vz := foldl (Spec.enc_word k (U32.add sum delta)
                      (Spec.round_index (U32.add sum delta))) (ws, z) (seq 0 (N - 1))).
  assert (Hlen : length vz.1 = N) by (subst vz; by rewrite enc_words_length).
  cbv beta iota.
  erewrite run_bind_ok by (apply (aget_words _ _ _ 0%nat); lia).
  erewrite run_bind_ok by (apply (aget_words _ _ _ (N - 1)%nat); lia).
  erewrite run_bind_ok
    by (apply kget_run; apply selector_range; apply round_index_range).
  erewrite run_bind_ok by (apply (aset_words _ _ _ _ (N - 1)%nat); lia).
  erewrite run_bind_ok
    by (apply (aget_words _ _ _ (N - 1)%nat); rewrite ?length_insert; lia).
  replace (Z.of_nat (S r) - 1) with (Z.of_nat r) by lia.
  match goal with
  | |- context [Encrypt_rounds fuel k _ _ ?s1 (mkLocals (?ws' ++ vpost) ?y1 ?z1 ?p1) m] =>
      destruct (IH k N m ws' vpost y1 z1 p1 r s1) as (y' & p' & Hy');
      [by rewrite length_insert | done | lia | lia |]
  end.
  exists y', p'. rewrite Hy'.
  cbn [Spec.enc_rounds]. unfold Spec.enc_round. fold vz. cbn [fst snd].
  rewrite MX_spec. unfold U32.add, U32.wrap, U32.modulus. reflexivity.
Qed.

(** ** Encrypt against the specification *)

Lemma block_check_test (b_in b_out : list byte) :
  let z := U32.wrap (Z.of_nat (length b_in)) in
  block_check b_in b_out ->
  (z <? 12) || (z >? 208) || negb (Z.land z 3 =? 0)
  || negb (z =? U32.wrap (Z.of_nat (length b_out))) = false.
Proof.
  intros z (H1 & H2 & H3). fold z in H1, H2, H3.
  rewrite land3_mod4, H2, <- H3, !Z.eqb_refl.
  destruct (Z.ltb_spec z 12); [lia|]. destruct (Z.gtb_spec z 208); [lia|].
  reflexivity.
Qed.

Lemma block_check_test_fail (b_in b_out : list byte) :
  let z := U32.wrap (Z.of_nat (length b_in)) in
  ~ block_check b_in b_out ->
  (z <? 12) || (z >? 208) || negb (Z.land z 3 =? 0)
  || negb (z =? U32.wrap (Z.of_nat (length b_out))) = true.
Proof.
  intros z H. unfold block_check in H. fold z in H.
  rewrite land3_mod4.
  destruct (Z.ltb_spec z 12); [reflexivity|].
  destruct (Z.gtb_spec z 208); [reflexivity|].
  destruct (Z.eqb_spec (z mod 4) 0); [|reflexivity].
  destruct (Z.eqb_spec z (U32.wrap (Z.of_nat (length b_out)))); [|reflexivity].
  exfalso. apply H. lia.
Qed.

(** The shape of two buffers that pass the test. *)
Lemma block_check_shape (b_in b_out : list byte) :
  block_check b_in b_out ->
  exists N : nat,
    (3 <= N <= 52)%nat /\
    U32.wrap (Z.of_nat (length b_in)) = Z.of_nat (4 * N) /\
    length (take (4 * N) b_in) = (4 * N)%nat /\
    length (take (4 * N) b_out) = (4 * N)%nat.
Proof.
  intros (H1 & H2 & H3).
  pose proof (wrap_le (Z.of_nat (length b_in)) ltac:(lia)) as Hi.
  pose proof (wrap_le (Z.of_nat (length b_out)) ltac:(lia)) as Ho.
  set (z := U32.wrap (Z.of_nat (length b_in))) in *.
  exists (Z.to_nat (z / 4)).
  assert (Hz : z = Z.of_nat (4 * Z.to_nat (z / 4))) by (Z.div_mod_to_equations; lia).
  split; [Z.div_mod_to_equations; lia|]. split; [exact Hz|].
  rewrite !length_take. lia.
Qed.

Lemma rounds_spec (N : nat) :
  (3 <= N <= 52)%nat -> U32.add 6 (52 / Z.of_nat N) = Z.of_nat (6 + 52 / N).
Proof.
  intros H. rewrite Nat2Z.inj_add, Nat2Z.inj_div. simpl Z.of_nat at 2 3.
  apply add_small.
  assert (0 <= 52 / Z.of_nat N <= 52); [|lia].
  split; [apply Z.div_pos; lia|].
  apply Z.div_le_upper_bound; lia.
Qed.

Lemma rounds_bound (N : nat) : (3 <= N)%nat -> (6 + 52 / N <= 23)%nat.
Proof.
  intros H. assert (Hq : (52 / N < 18)%nat)
    by (apply Nat.Div0.div_lt_upper_bound; lia).
  generalize dependent (52 / N)%nat. intros q Hq. lia.
Qed.

Lemma udiv_run (a b : Z) (m : mem) : b <> 0 -> udiv a b m = (Ok (a / b), m).
Proof. intros H. unfold udiv. destruct (Z.eqb_spec b 0); [done|]. reflexivity. Qed.

Lemma Encrypt_run (k : TeaKey) (in_ out : slice) (m : mem) :
  block_check (buf m in_) (buf m out) ->
  Encrypt k in_ out m
  = (Ok out, <[out := block_result (Spec.Encrypt k) (buf m in_) (buf m out)]> m).
Proof.
  intros Hchk. pose proof (block_check_test _ _ Hchk) as Htest. cbv zeta in Htest.
  destruct (block_check_shape _ _ Hchk) as (N & HN & Hz & Hti & Hto).
  destruct Hchk as (_ & _ & Hzo).
  unfold Encrypt, block_result.
  erewrite run_bind_ok by apply len_run.
  erewrite run_bind_ok by apply len_run.
  rewrite Htest. rewrite <- Hzo. rewrite Hz. rewrite Nat2Z.id.
  set (body := take (4 * N) (buf m in_)).
  assert (Hws : length (Spec.words_of_bytes body) = N)
    by (by apply words_of_bytes_length).
  (* loading *)
  erewrite run_bind_ok.
  2:{ pose proof (load_words_run (S (4 * N)) in_ m N
                    [] body (drop (4 * N) (buf m in_))
                    [] (replicate N 0) (replicate (52 - N) 0) (Z.of_nat (4 * N))) as H.
      replace (replicate 52 0) with (replicate N 0 ++ replicate (52 - N) 0)
        by (rewrite <- replicate_add; f_equal; lia).
      apply H.
      - simpl. subst body. by rewrite take_drop.
      - exact Hti.
      - reflexivity.
      - apply length_replicate.
      - subst body. rewrite Hti. simpl. lia.
      - lia.
      - lia. }
  cbn [app].
  replace (Z.of_nat (4 * N)) with (4 * Z.of_nat N) by lia.
  rewrite shr2_mul4.
  erewrite run_bind_ok by (apply udiv_run; lia).
  rewrite (rounds_spec N), ?Nat2Z.id by lia.
  rewrite (sub_small (Z.of_nat N) 1) by lia.
  erewrite run_bind_ok by (apply (aget_words _ _ _ (N - 1)%nat); lia).
  pose proof (rounds_bound N ltac:(lia)) as Hrb.
  destruct (Encrypt_rounds_run (S (6 + 52 / N)) k N m
              (Spec.words_of_bytes body) (replicate (52 - N) 0) 0
              (Spec.words_of_bytes body !!! (N - 1)%nat) 0 (6 + 52 / N) 0)
    as (y' & p' & Hr); [done | lia | lia | lia |].
  erewrite run_bind_ok by exact Hr.
  cbn [lv].
  (* serialising *)
  erewrite run_bind_ok; [reflexivity|].
  pose proof (store_words_run (S (4 * N)) out m N
                [] (take (4 * N) (buf m out)) (drop (4 * N) (buf m out)) []
                (Spec.enc_rounds k N (6 + 52 / N) 0
                   (Spec.words_of_bytes body, Spec.words_of_bytes body !!! (N - 1)%nat)).1
                (replicate (52 - N) 0)) as H.
  cbn [app length Z.of_nat] in H.
  unfold Spec.Encrypt. rewrite Hws. apply H.
  - rewrite take_drop. apply buf_lookup_nonempty.
    rewrite <- (take_drop (4 * N) (buf m out)), length_app. lia.
  - done.
  - reflexivity.
  - by rewrite enc_rounds_length.
  - assert (Hl : (length (take (4 * N) (buf m out))
                  + length (drop (4 * N) (buf m out)))%nat = length (buf m out))
      by (by rewrite <- length_app, take_drop).
    cbn [Nat.add]. rewrite Hl, <- Hzo, Hz, Hto. lia.
  - lia.
  - lia.
Qed.

(** ** Decrypt against the specification *)

Lemma dec_word_length (key : TeaKey) (sum e : Z) (vy : list Z * Z) (p : nat) :
  length (Spec.dec_word key sum e vy p).1 = length vy.1.
Proof. unfold Spec.dec_word. simpl. apply length_insert. Qed.

Lemma dec_words_length (key : TeaKey) (sum e : Z) (ps : list nat) :
  forall vy : list Z * Z,
  length (foldl (Spec.dec_word key sum e) vy ps).1 = length vy.1.
Proof.
  induction ps as [|p ps IH]; intros vy; [reflexivity|].
  simpl. by rewrite IH, dec_word_length.
Qed.

Lemma dec_round_length (key : TeaKey) (N : nat) (sum : Z) (vy : list Z * Z) :
  length (Spec.dec_round key N sum vy).1 = length vy.1.
Proof.
  unfold Spec.dec_round. simpl. by rewrite length_insert, dec_words_length.
Qed.

Lemma dec_rounds_length (key : TeaKey) (N r : nat) :
  forall (sum : Z) (vy : list Z * Z),
  length (Spec.dec_rounds key N r sum vy).1 = length vy.1.
Proof.
  induction r as [|r IH]; intros sum vy; [reflexivity|].
  simpl. by rewrite IH, dec_round_length.
Qed.

Lemma dec_word_eq (key : TeaKey) (sum e : Z) (v : list Z) (y : Z) (p : nat) :
  Spec.dec_word key sum e (v, y) p
  = (<[p := (v !!! p - Spec.MX y (v !!! (p - 1)%nat) sum
               (Spec.key_word key (Spec.selector p e))) mod 2 ^ 32]> v,
     <[p := (v !!! p - Spec.MX y (v !!! (p - 1)%nat) sum
               (Spec.key_word key (Spec.selector p e))) mod 2 ^ 32]> v !!! p).
Proof. reflexivity. Qed.

Lemma reverse_seq_S (a p : nat) :
  reverse (seq a (S p)) = (a + p)%nat :: reverse (seq a p).
Proof. by rewrite seq_S, reverse_snoc. Qed.

Lemma Decrypt_inner_run (fuel : nat) : forall (k : TeaKey) (N : nat) (sum e : Z)
    (m : mem) (ws vpost : list Z) (y z : Z) (p : nat),
  length ws = N -> (2 <= N <= 52)%nat -> (p < N)%nat -> (p < fuel)%nat ->
  0 <= e <= 3 ->
  exists z',
    Decrypt_inner fuel k sum e (mkLocals (ws ++ vpost) y z (Z.of_nat p)) m
    = (Ok (mkLocals ((foldl (Spec.dec_word k sum e) (ws, y) (reverse (seq 1 p))).1 ++ vpost)
             (foldl (Spec.dec_word k sum e) (ws, y) (reverse (seq 1 p))).2 z' 0), m).
Proof.
  induction fuel as [|fuel IH]; intros k N sum e m ws vpost y z p HN HN' Hp Hf He; [lia|].
  cbn [Decrypt_inner].
  destruct p as [|p].
  { change (0 <? Z.of_nat 0) with false. cbv iota. exists z. reflexivity. }
  destruct (Z.ltb_spec 0 (Z.of_nat (S p))) as [_|Hge]; [|lia].
  rewrite !(sub_small (Z.of_nat (S p)) 1) by lia.
  erewrite run_bind_ok by (apply (aget_words _ _ _ p); lia).
  erewrite run_bind_ok by (apply (aget_words _ _ _ (S p)); lia).
  erewrite run_bind_ok by (apply kget_run; by apply selector_range).
  erewrite run_bind_ok by (apply (aset_words _ _ _ _ (S p)); lia).
  erewrite run_bind_ok by (apply (aget_words _ _ _ (S p)); rewrite ?length_insert; lia).
  replace (Z.of_nat (S p) - 1) with (Z.of_nat p) by lia.
  match goal with
  | |- context [Decrypt_inner fuel k sum e (mkLocals (?ws' ++ vpost) ?y1 ?z1 _) m] =>
      destruct (IH k N sum e m ws' vpost y1 z1 p) as [z' Hz'];
      [by rewrite length_insert | done | lia | lia | done |]
  end.
  exists z'. rewrite Hz'.
  rewrite reverse_seq_S. cbn [foldl]. rewrite dec_word_eq.
  replace (1 + p)%nat with (S p) by lia. replace (S p - 1)%nat with p by lia.
  rewrite MX_spec. unfold U32.sub, U32.wrap, U32.modulus. reflexivity.
Qed.

Lemma Decrypt_rounds_run (fuel : nat) : forall (k : TeaKey) (N : nat) (m : mem)
    (ws vpost : list Z) (y z p : Z) (r : nat) (sum : Z),
  length ws = N -> (2 <= N <= 52)%nat -> (r < fuel)%nat -> Z.of_nat r < 4294967296 ->
  exists z' p',
    Decrypt_rounds fuel k (Z.of_nat N) (Z.of_nat r) sum (mkLocals (ws ++ vpost) y z p) m
    = (Ok (mkLocals ((Spec.dec_rounds k N r sum (ws, y)).1 ++ vpost)
             (Spec.dec_rounds k N r sum (ws, y)).2 z' p'), m).
Proof.
  induction fuel as [|fuel IH]; intros k N m ws vpost y z p r sum HN HN' Hf Hr; [lia|].
  cbn [Decrypt_rounds].
  destruct r as [|r].
  { change (0 <? Z.of_nat 0) with false. cbv iota. exists z, p. reflexivity. }
  destruct (Z.ltb_spec 0 (Z.of_nat (S r))) as [_|Hge]; [|lia].
  rewrite (sub_small (Z.of_nat (S r)) 1) by lia.
  rewrite !(sub_small (Z.of_nat N) 1) by lia.
  rewrite round_index_spec.
  cbn [lv ly lz].
  replace (Z.of_nat N - 1) with (Z.of_nat (N - 1)) by lia.
  destruct (Decrypt_inner_run (S (Z.to_nat (Z.of_nat N))) k N sum
              (Spec.round_index sum) m ws vpost y z (N - 1))
    as [z1 Hz1]; [done | done | lia | lia | apply round_index_range |].
  erewrite run_bind_ok by exact Hz1.
  set (vy := foldl (Spec.dec_word k sum (Spec.round_index sum)) (ws, y)
               (reverse (seq 1 (N - 1)))).
  assert (Hlen : length vy.1 = N) by (subst vy; by rewrite dec_words_length).
  cbv beta iota.
  erewrite run_bind_ok by (apply (aget_words _ _ _ (N - 1)%nat); lia).
  erewrite run_bind_ok by (apply (aget_words _ _ _ 0%nat); lia).
  erewrite run_bind_ok
    by (apply (kget_run _ (Spec.selector 0 _)); apply selector_range;
        apply round_index_range).
  erewrite run_bind_ok by (apply (aset_words _ _ _ _ 0%nat); lia).
  erewrite run_bind_ok
    by (apply (aget_words _ _ _ 0%nat); rewrite ?length_insert; lia).
  replace (Z.of_nat (S r) - 1) with (Z.of_nat r) by lia.
  match goal with
  | |- context [Decrypt_rounds fuel k _ _ ?s1 (mkLocals (?ws' ++ vpost) ?y1 ?z1 ?p1) m] =>
      destruct (IH k N m ws' vpost y1 z1 p1 r s1) as (z' & p' & Hz');
      [by rewrite length_insert | done | lia | lia |]
  end.
  exists z', p'. rewrite Hz'.
  cbn [Spec.dec_rounds]. unfold Spec.dec_round. fold vy. cbn [fst snd].
  rewrite MX_spec. unfold U32.sub, U32.wrap, U32.modulus. reflexivity.
Qed.

Lemma Decrypt_run (k : TeaKey) (in_ out : slice) (m : mem) :
  block_check (buf m in_) (buf m out) ->
  Decrypt k in_ out m
  = (Ok out, <[out := block_result (Spec.Decrypt k) (buf m in_) (buf m out)]> m).
Proof.
  intros Hchk. pose proof (block_check_test _ _ Hchk) as Htest. cbv zeta in Htest.
  destruct (block_check_shape _ _ Hchk) as (N & HN & Hz & Hti & Hto).
  destruct Hchk as (_ & _ & Hzo).
  unfold Decrypt, block_result.
  erewrite run_bind_ok by apply len_run.
  erewrite run_bind_ok by apply len_run.
  rewrite Htest. rewrite <- Hzo. rewrite Hz. rewrite Nat2Z.id.
  set (body := take (4 * N) (buf m in_)).
  assert (Hws : length (Spec.words_of_bytes body) = N)
    by (by apply words_of_bytes_length).
  (* loading *)
  erewrite run_bind_ok.
  2:{ pose proof (load_words_run (S (4 * N)) in_ m N
                    [] body (drop (4 * N) (buf m in_))
                    [] (replicate N 0) (replicate (52 - N) 0) (Z.of_nat (4 * N))) as H.
      replace (replicate 52 0) with (replicate N 0 ++ replicate (52 - N) 0)
        by (rewrite <- replicate_add; f_equal; lia).
      apply H.
      - simpl. subst body. by rewrite take_drop.
      - exact Hti.
      - reflexivity.
      - apply length_replicate.
      - subst body. rewrite Hti. simpl. lia.
      - lia.
      - lia. }
  cbn [app].
  replace (Z.of_nat (4 * N)) with (4 * Z.of_nat N) by lia.
  rewrite shr2_mul4.
  erewrite run_bind_ok by (apply udiv_run; lia).
  rewrite (rounds_spec N), ?Nat2Z.id by lia.
  erewrite run_bind_ok by (apply (aget_words _ _ _ 0%nat); lia).
  pose proof (rounds_bound N ltac:(lia)) as Hrb.
  destruct (Decrypt_rounds_run (S (6 + 52 / N)) k N m
              (Spec.words_of_bytes body) (replicate (52 - N) 0)
              (Spec.words_of_bytes body !!! 0%nat) 0 0 (6 + 52 / N)
              (U32.mul (Z.of_nat (6 + 52 / N)) delta))
    as (z' & p' & Hr); [done | lia | lia | lia |].
  erewrite run_bind_ok by exact Hr.
  cbn [lv].
  (* serialising *)
  erewrite run_bind_ok; [reflexivity|].
  pose proof (store_words_run (S (4 * N)) out m N
                [] (take (4 * N) (buf m out)) (drop (4 * N) (buf m out)) []
                (Spec.dec_rounds k N (6 + 52 / N)
                   (U32.mul (Z.of_nat (6 + 52 / N)) delta)
                   (Spec.words_of_bytes body, Spec.words_of_bytes body !!! 0%nat)).1
                (replicate (52 - N) 0)) as H.
  cbn [app length Z.of_nat] in H.
  unfold Spec.Decrypt. rewrite Hws. apply H.
  - rewrite take_drop. apply buf_lookup_nonempty.
    rewrite <- (take_drop (4 * N) (buf m out)), length_app. lia.
  - done.
  - reflexivity.
  - by rewrite dec_rounds_length.
  - assert (Hl : (length (take (4 * N) (buf m out))
                  + length (drop (4 * N) (buf m out)))%nat = length (buf m out))
      by (by rewrite <- length_app, take_drop).
    cbn [Nat.add]. rewrite Hl, <- Hzo, Hz, Hto. lia.
  - lia.
  - lia.
Qed.

(** ** A round undone word by word *)

Section Passes.
Variable key : TeaKey.
Variable N : nat.
Hypothesis HN : (2 <= N)%nat.

Lemma succ_mod_ne (p : nat) : (p < N)%nat -> ((p + 1) mod N)%nat <> p.
Proof.
  intros Hp. destruct (decide (p + 1 = N)%nat) as [E|E].
  - rewrite E, Nat.Div0.mod_same. lia.
  - rewrite Nat.mod_small by lia. lia.
Qed.

Lemma pred_mod_ne (p : nat) : (p < N)%nat -> ((p + N - 1) mod N)%nat <> p.
Proof.
  intros Hp. destruct p as [|p].
  - rewrite Nat.mod_small by lia. lia.
  - replace (S p + N - 1)%nat with (p + 1 * N)%nat by lia.
    rewrite Nat.Div0.mod_add, Nat.mod_small by lia. lia.
Qed.

Lemma pred_mod_S (p : nat) : (S p < N)%nat -> ((S p + N - 1) mod N)%nat = p.
Proof.
  intros Hp. replace (S p + N - 1)%nat with (p + 1 * N)%nat by lia.
  rewrite Nat.Div0.mod_add, Nat.mod_small by lia. done.
Qed.

Lemma enc_upd_ok (sum e : Z) (v : list Z) (p : nat) :
  words_ok N v -> words_ok N (enc_upd key N sum e v p).
Proof.
  intros [Hl Hr]. unfold enc_upd. split; [by rewrite length_insert|].
  apply Forall_insert; [done|]. apply Z.mod_pos_bound. reflexivity.
Qed.

Lemma dec_upd_ok (sum e : Z) (v : list Z) (p : nat) :
  words_ok N v -> words_ok N (dec_upd key N sum e v p).
Proof.
  intros [Hl Hr]. unfold dec_upd. split; [by rewrite length_insert|].
  apply Forall_insert; [done|]. apply Z.mod_pos_bound. reflexivity.
Qed.

Lemma enc_upds_ok (sum e : Z) (ps : list nat) : forall v : list Z,
  words_ok N v -> words_ok N (foldl (enc_upd key N sum e) v ps).
Proof.
  induction ps as [|p ps IH]; intros v Hv; [done|].
  simpl. apply IH. by apply enc_upd_ok.
Qed.

Lemma dec_upds_ok (sum e : Z) (ps : list nat) : forall v : list Z,
  words_ok N v -> words_ok N (foldl (dec_upd key N sum e) v ps).
Proof.
  induction ps as [|p ps IH]; intros v Hv; [done|].
  simpl. apply IH. by apply dec_upd_ok.
Qed.

(** Undoing one update: the neighbours of p are not touched by it. *)
Lemma dec_upd_enc_upd (sum e : Z) (v : list Z) (p : nat) :
  words_ok N v -> (p < N)%nat ->
  dec_upd key N sum e (enc_upd key N sum e v p) p = v.
Proof.
  intros [Hl Hr] Hp.
  assert (Hmix : mix key N sum e (enc_upd key N sum e v p) p = mix key N sum e v p).
  { unfold mix, enc_upd.
    rewrite !list_lookup_total_insert_ne
      by (apply not_eq_sym; first [by apply succ_mod_ne | by apply pred_mod_ne]).
    reflexivity. }
  unfold dec_upd. rewrite Hmix. unfold enc_upd.
  rewrite list_lookup_total_insert_eq by lia.
  rewrite list_insert_insert_eq.
  apply list_insert_id'. intros _.
  assert (Hx : U32.in_range (v !!! p)).
  { eapply Forall_lookup_1; [exact Hr|]. apply list_lookup_lookup_total_lt. lia. }
  rewrite (list_lookup_lookup_total_lt v p) by lia. f_equal.
  unfold U32.in_range, U32.modulus in Hx.
  rewrite Zminus_mod_idemp_l.
  replace (v !!! p + mix key N sum e v p - mix key N sum e v p) with (v !!! p) by lia.
  symmetry. by apply Z.mod_small.
Qed.

Lemma dec_upds_enc_upds (sum e : Z) (ps : list nat) : forall v : list Z,
  words_ok N v -> Forall (fun p => (p < N)%nat) ps ->
  foldl (dec_upd key N sum e) (foldl (enc_upd key N sum e) v ps) (reverse ps) = v.
Proof.
  induction ps as [|p ps IH]; intros v Hv Hps; [done|].
  inversion Hps as [|? ? Hp Hps']; subst.
  rewrite reverse_cons, foldl_app. simpl.
  rewrite IH by (by try apply enc_upd_ok).
  by apply dec_upd_enc_upd.
Qed.

Lemma dec_pass_enc_pass (sum : Z) (v : list Z) :
  words_ok N v -> dec_pass key N sum (enc_pass key N sum v) = v.
Proof.
  intros Hv. unfold dec_pass, enc_pass. apply dec_upds_enc_upds; [done|].
  apply Forall_forall. intros p Hp%elem_of_seq. lia.
Qed.

Lemma enc_pass_ok (sum : Z) (v : list Z) :
  words_ok N v -> words_ok N (enc_pass key N sum v).
Proof. apply enc_upds_ok. Qed.

Lemma enc_passes_ok (r : nat) : forall (sum : Z) (v : list Z),
  words_ok N v -> words_ok N (enc_passes key N r sum v).
Proof.
  induction r as [|r IH]; intros sum v Hv; [done|].
  simpl. apply IH. by apply enc_pass_ok.
Qed.

(** The last pass of r+1 passes runs with the sum sum + (r+1)*DELTA. *)
Lemma enc_passes_last (r : nat) : forall (sum : Z) (v : list Z),
  enc_passes key N (S r) sum v
  = enc_pass key N ((sum + Z.of_nat (S r) * Spec.DELTA) mod 2 ^ 32)
      (enc_passes key N r sum v).
Proof.
  induction r as [|r IH]; intros sum v.
  - simpl. repeat f_equal; lia.
  - change (enc_passes key N (S (S r)) sum v)
      with (enc_passes key N (S r) ((sum + Spec.DELTA) mod 2 ^ 32)
              (enc_pass key N ((sum + Spec.DELTA) mod 2 ^ 32) v)).
    rewrite IH. cbn [enc_passes]. f_equal.
    rewrite Zplus_mod_idemp_l. f_equal. lia.
Qed.

Lemma dec_passes_enc_passes (r : nat) : forall (sum : Z) (v : list Z),
  words_ok N v ->
  dec_passes key N r ((sum + Z.of_nat r * Spec.DELTA) mod 2 ^ 32)
    (enc_passes key N r sum v) = v.
Proof.
  induction r as [|r IH]; intros sum v Hv; [done|].
  rewrite enc_passes_last. cbn [dec_passes].
  rewrite dec_pass_enc_pass by (by apply enc_passes_ok).
  rewrite Zminus_mod_idemp_l.
  replace (sum + Z.of_nat (S r) * Spec.DELTA - Spec.DELTA)
    with (sum + Z.of_nat r * Spec.DELTA) by lia.
  by apply IH.
Qed.
End Passes.

(** ** The carried variables y and z are the cyclic neighbours *)

Lemma enc_word_eq (key : TeaKey) (sum e : Z) (v : list Z) (z : Z) (p : nat) :
  Spec.enc_word key sum e (v, z) p
  = (<[p := (v !!! p + Spec.MX (v !!! S p) z sum
               (Spec.key_word key (Spec.selector p e))) mod 2 ^ 32]> v,
     <[p := (v !!! p + Spec.MX (v !!! S p) z sum
               (Spec.key_word key (Spec.selector p e))) mod 2 ^ 32]> v !!! p).
Proof. reflexivity. Qed.

Lemma seq_last (N : nat) : (1 <= N)%nat -> seq 0 N = seq 0 (N - 1) ++ [(N - 1)%nat].
Proof.
  intros H. destruct N as [|n]; [lia|].
  replace (S n - 1)%nat with n by lia. apply seq_S.
Qed.

Lemma seq_first (N : nat) : (1 <= N)%nat -> seq 0 N = 0%nat :: seq 1 (N - 1).
Proof.
  intros H. destruct N as [|n]; [lia|].
  by replace (S n - 1)%nat with n by lia.
Qed.

Section Carried.
Variable key : TeaKey.
Variable N : nat.
Hypothesis HN : (2 <= N)%nat.

Lemma enc_words_upds (sum e : Z) (c : nat) : forall (p : nat) (v : list Z),
  length v = N -> (p + c <= N - 1)%nat ->
  foldl (Spec.enc_word key sum e) (v, v !!! ((p + N - 1) mod N)%nat) (seq p c)
  = (foldl (enc_upd key N sum e) v (seq p c),
     foldl (enc_upd key N sum e) v (seq p c) !!! ((p + c + N - 1) mod N)%nat).
Proof.
  induction c as [|c IH]; intros p v Hl Hpc.
  - simpl. by rewrite Nat.add_0_r.
  - cbn [seq foldl]. rewrite enc_word_eq.
    assert (Hstep :
      <[p := (v !!! p + Spec.MX (v !!! S p) (v !!! ((p + N - 1) mod N)%nat) sum
                (Spec.key_word key (Spec.selector p e))) mod 2 ^ 32]> v
      = enc_upd key N sum e v p).
    { unfold enc_upd, mix. rewrite (Nat.mod_small (p + 1)) by lia.
      by replace (p + 1)%nat with (S p) by lia. }
    rewrite Hstep.
    assert (Hz : enc_upd key N sum e v p !!! p
                 = enc_upd key N sum e v p !!! ((S p + N - 1) mod N)%nat)
      by (by rewrite pred_mod_S by lia).
    rewrite Hz, IH.
    + by replace (S p + c)%nat with (p + S c)%nat by lia.
    + unfold enc_upd. by rewrite length_insert.
    + lia.
Qed.

Lemma enc_round_pass (sum : Z) (v : list Z) :
  length v = N ->
  Spec.enc_round key N sum (v, v !!! (N - 1)%nat)
  = (enc_pass key N sum v, enc_pass key N sum v !!! (N - 1)%nat).
Proof.
  intros Hl. unfold Spec.enc_round.
  pose proof (enc_words_upds sum (Spec.round_index sum) (N - 1) 0 v Hl ltac:(lia)) as H.
  rewrite (Nat.mod_small (0 + N - 1)) in H by lia.
  replace (0 + N - 1)%nat with (N - 1)%nat in H by lia.
  rewrite H. cbn [fst snd].
  set (V := foldl (enc_upd key N sum (Spec.round_index sum)) v (seq 0 (N - 1))).
  assert (HV : length V = N).
  { subst V. clear H. generalize (seq 0 (N - 1)). intros ps. revert v Hl.
    induction ps as [|q ps IH]; intros v Hl; [done|].
    simpl. apply IH. unfold enc_upd. by rewrite length_insert. }
  assert (Hlast :
    <[(N - 1)%nat := (V !!! (N - 1)%nat
        + Spec.MX (V !!! 0%nat) (V !!! ((0 + (N - 1) + N - 1) mod N)%nat) sum
            (Spec.key_word key (Spec.selector (N - 1) (Spec.round_index sum))))
        mod 2 ^ 32]> V
    = enc_pass key N sum v).
  { unfold enc_pass. rewrite (seq_last N) by lia.
    rewrite foldl_app. fold V. cbn [foldl].
    unfold enc_upd at 1. unfold mix.
    replace (N - 1 + 1)%nat with N by lia. rewrite Nat.Div0.mod_same.
    replace (N - 1 + N - 1)%nat with (0 + (N - 1) + N - 1)%nat by lia.
    reflexivity. }
  by rewrite Hlast.
Qed.

Lemma enc_rounds_passes (r : nat) : forall (sum : Z) (v : list Z),
  length v = N ->
  Spec.enc_rounds key N r sum (v, v !!! (N - 1)%nat)
  = (enc_passes key N r sum v, enc_passes key N r sum v !!! (N - 1)%nat).
Proof.
  induction r as [|r IH]; intros sum v Hl; [done|].
  cbn [Spec.enc_rounds enc_passes]. rewrite enc_round_pass by done.
  apply IH. unfold enc_pass. generalize (seq 0 N). intros ps. revert v Hl.
  induction ps as [|q ps IHp]; intros v Hl; [done|].
  simpl. apply IHp. unfold enc_upd. by rewrite length_insert.
Qed.

Lemma dec_words_upds (sum e : Z) (p : nat) : forall v : list Z,
  length v = N -> (p < N)%nat ->
  foldl (Spec.dec_word key sum e) (v, v !!! ((p + 1) mod N)%nat) (reverse (seq 1 p))
  = (foldl (dec_upd key N sum e) v (reverse (seq 1 p)),
     foldl (dec_upd key N sum e) v (reverse (seq 1 p)) !!! 1%nat).
Proof.
  induction p as [|p IH]; intros v Hl Hp.
  - simpl. by rewrite Nat.mod_small by lia.
  - rewrite reverse_seq_S. cbn [foldl]. rewrite dec_word_eq.
    replace (1 + p)%nat with (S p) by lia.
    assert (Hstep :
      <[S p := (v !!! S p - Spec.MX (v !!! ((S p + 1) mod N)%nat) (v !!! (S p - 1)%nat) sum
                (Spec.key_word key (Spec.selector (S p) e))) mod 2 ^ 32]> v
      = dec_upd key N sum e v (S p)).
    { unfold dec_upd, mix. rewrite pred_mod_S by lia.
      by replace (S p - 1)%nat with p by lia. }
    rewrite Hstep.
    assert (Hy : dec_upd key N sum e v (S p) !!! S p
                 = dec_upd key N sum e v (S p) !!! ((p + 1) mod N)%nat).
    { rewrite Nat.mod_small by lia. by replace (p + 1)%nat with (S p) by lia. }
    rewrite Hy, IH; [done | | lia].
    unfold dec_upd. by rewrite length_insert.
Qed.

Lemma dec_round_pass (sum : Z) (v : list Z) :
  length v = N ->
  Spec.dec_round key N sum (v, v !!! 0%nat)
  = (dec_pass key N sum v, dec_pass key N sum v !!! 0%nat).
Proof.
  intros Hl. unfold Spec.dec_round.
  pose proof (dec_words_upds sum (Spec.round_index sum) (N - 1) v Hl ltac:(lia)) as H.
  replace (N - 1 + 1)%nat with N in H by lia. rewrite Nat.Div0.mod_same in H.
  rewrite H. cbn [fst snd].
  set (V := foldl (dec_upd key N sum (Spec.round_index sum)) v (reverse (seq 1 (N - 1)))).
  assert (Hlast :
    <[0%nat := (V !!! 0%nat
        - Spec.MX (V !!! 1%nat) (V !!! (N - 1)%nat) sum
            (Spec.key_word key (Spec.selector 0 (Spec.round_index sum))))
        mod 2 ^ 32]> V
    = dec_pass key N sum v).
  { unfold dec_pass. rewrite (seq_first N) by lia.
    rewrite reverse_cons, foldl_app. fold V. cbn [foldl].
    unfold dec_upd at 1. unfold mix.
    rewrite (Nat.mod_small (0 + 1)) by lia.
    rewrite (Nat.mod_small (0 + N - 1)) by lia.
    reflexivity. }
  by rewrite Hlast.
Qed.

Lemma dec_rounds_passes (r : nat) : forall (sum : Z) (v : list Z),
  length v = N ->
  Spec.dec_rounds key N r sum (v, v !!! 0%nat)
  = (dec_passes key N r sum v, dec_passes key N r sum v !!! 0%nat).
Proof.
  induction r as [|r IH]; intros sum v Hl; [done|].
  cbn [Spec.dec_rounds dec_passes]. rewrite dec_round_pass by done.
  apply IH. unfold dec_pass. generalize (reverse (seq 0 N)). intros ps. revert v Hl.
  induction ps as [|q ps IHp]; intros v Hl; [done|].
  simpl. apply IHp. unfold dec_upd. by rewrite length_insert.
Qed.
End Carried.

(** ** Buffers and vectors of words *)

Lemma bytes_of_words_length (v : list Z) :
  length (Spec.bytes_of_words v) = (4 * length v)%nat.
Proof.
  unfold Spec.bytes_of_words. induction v as [|w v IH]; [done|].
  rewrite fmap_cons. simpl. rewrite IH. lia.
Qed.

Lemma words_of_bytes_of_words (v : list Z) :
  Forall U32.in_range v -> Spec.words_of_bytes (Spec.bytes_of_words v) = v.
Proof.
  unfold Spec.bytes_of_words. induction 1 as [|w v Hw _ IH]; [done|].
  rewrite fmap_cons. simpl. rewrite IH. f_equal. by apply word_of_bytes_of_word.
Qed.

Lemma bytes_of_words_of_bytes (c : nat) : forall b : list byte,
  length b = (4 * c)%nat -> Spec.bytes_of_words (Spec.words_of_bytes b) = b.
Proof.
  unfold Spec.bytes_of_words.
  induction c as [|c IH]; intros b H.
  - destruct b; [reflexivity | simpl in H; lia].
  - destruct (length4_inv _ _ H) as (a0 & a1 & a2 & a3 & l' & -> & Hk).
    cbn [Spec.words_of_bytes]. rewrite fmap_cons. cbn [concat].
    rewrite bytes_of_word_of_bytes, IH by done. reflexivity.
Qed.

Lemma words_of_bytes_range (b : list byte) : Forall U32.in_range (Spec.words_of_bytes b).
Proof.
  assert (H : forall (n : nat) (l : list byte),
             (length l < n)%nat -> Forall U32.in_range (Spec.words_of_bytes l)).
  { induction n as [|n IH]; intros l Hl; [lia|].
    destruct l as [|a0 [|a1 [|a2 [|a3 r]]]]; try by constructor.
    simpl. constructor; [apply word_of_bytes_range|]. apply IH. simpl in Hl. lia. }
  apply (H (S (length b))). lia.
Qed.

(** ** Decrypt inverts Encrypt, on buffers *)

Lemma Spec_Encrypt_length (k : TeaKey) (N : nat) (b : list byte) :
  length b = (4 * N)%nat -> length (Spec.Encrypt k b) = (4 * N)%nat.
Proof.
  intros H. unfold Spec.Encrypt.
  rewrite bytes_of_words_length, enc_rounds_length. cbn [fst].
  by rewrite !(words_of_bytes_length N).
Qed.

Lemma Spec_Decrypt_length (k : TeaKey) (N : nat) (b : list byte) :
  length b = (4 * N)%nat -> length (Spec.Decrypt k b) = (4 * N)%nat.
Proof.
  intros H. unfold Spec.Decrypt.
  rewrite bytes_of_words_length, dec_rounds_length. cbn [fst].
  by rewrite !(words_of_bytes_length N).
Qed.

Lemma Spec_Decrypt_Encrypt (k : TeaKey) (N : nat) (b : list byte) :
  (2 <= N)%nat -> length b = (4 * N)%nat ->
  Spec.Decrypt k (Spec.Encrypt k b) = b.
Proof.
  intros HN Hb.
  pose proof (words_of_bytes_length N b Hb) as Hl.
  assert (Hok : words_ok N (Spec.words_of_bytes b))
    by (split; [done | apply words_of_bytes_range]).
  unfold Spec.Encrypt. rewrite Hl.
  rewrite (enc_rounds_passes k N HN) by done. cbn [fst].
  pose proof (enc_passes_ok k N (6 + 52 / N) 0 _ Hok) as [Hl' Hr'].
  unfold Spec.Decrypt.
  rewrite words_of_bytes_of_words by done. rewrite Hl'.
  rewrite (dec_rounds_passes k N HN) by done. cbn [fst].
  pose proof (dec_passes_enc_passes k N HN (6 + 52 / N) 0 _ Hok) as Hinv.
  rewrite Z.add_0_l in Hinv. rewrite Hinv.
  by apply (bytes_of_words_of_bytes N).
Qed.

(** ** Rejected lengths, and totality *)

Lemma block_check_dec (b_in b_out : list byte) :
  block_check b_in b_out \/ ~ block_check b_in b_out.
Proof.
  unfold block_check.
  set (z := U32.wrap (Z.of_nat (length b_in))).
  set (z' := U32.wrap (Z.of_nat (length b_out))).
  destruct (Z_le_dec 12 z); [|right; lia].
  destruct (Z_le_dec z 208); [|right; lia].
  destruct (Z.eq_dec (z mod 4) 0); [|right; tauto].
  destruct (Z.eq_dec z z'); [|right; tauto].
  left. tauto.
Qed.

Lemma Encrypt_fail (k : TeaKey) (in_ out : slice) (m : mem) :
  ~ block_check (buf m in_) (buf m out) ->
  Encrypt k in_ out m = (Panicked (PanicMsg em), m).
Proof.
  intros H. apply block_check_test_fail in H. cbv zeta in H.
  unfold Encrypt.
  erewrite run_bind_ok by apply len_run.
  erewrite run_bind_ok by apply len_run.
  by rewrite H.
Qed.

Lemma Decrypt_fail (k : TeaKey) (in_ out : slice) (m : mem) :
  ~ block_check (buf m in_) (buf m out) ->
  Decrypt k in_ out m = (Panicked (PanicMsg em), m).
Proof.
  intros H. apply block_check_test_fail in H. cbv zeta in H.
  unfold Decrypt.
  erewrite run_bind_ok by apply len_run.
  erewrite run_bind_ok by apply len_run.
  by rewrite H.
Qed.

(** For buffers whose lengths fit 32 bits the test is the one on the
    lengths themselves. *)
Lemma block_check_small (b_in b_out : list byte) :
  Z.of_nat (length b_in) < 2 ^ 32 -> Z.of_nat (length b_out) < 2 ^ 32 ->
  block_check b_in b_out <->
  12 <= Z.of_nat (length b_in) <= 208 /\ Z.of_nat (length b_in) mod 4 = 0
  /\ length b_in = length b_out.
Proof.
  intros Hi Ho. unfold block_check.
  rewrite !wrap_small by lia. lia.
Qed.

Lemma block_result_exact (f : list byte -> list byte) (b_in b_out : list byte) :
  Z.of_nat (length b_in) < 2 ^ 32 -> length b_out = length b_in ->
  block_result f b_in b_out = f b_in.
Proof.
  intros Hi Ho. unfold block_result. rewrite wrap_small by lia.
  rewrite Nat2Z.id, take_ge, drop_ge by lia. apply app_nil_r.
Qed.

Lemma NewKey_total (key : slice) (m : mem) : returns_or_misuse (NewKey key) m.
Proof.
  unfold returns_or_misuse. rewrite NewKey_run.
  destruct (Spec.ConstructKey (buf m key)); [left; eauto | by right].
Qed.

Lemma AsBELE_total (d : slice) (m : mem) : returns_or_misuse (AsBELE d) m.
Proof.
  destruct (len4_ok_dec (buf m d)) as [H|H].
  - left. rewrite AsBELE_run by done. eauto.
  - right. apply AsBELE_fail. unfold len4_ok. lia.
Qed.

Lemma AsLEBE_total (d : slice) (m : mem) : returns_or_misuse (AsLEBE d) m.
Proof.
  destruct (len4_ok_dec (buf m d)) as [H|H].
  - left. rewrite AsLEBE_run by done. eauto.
  - right. apply AsLEBE_fail. unfold len4_ok. lia.
Qed.

Lemma AsLELE_total (d : slice) (m : mem) : returns_or_misuse (AsLELE d) m.
Proof.
  destruct (len4_ok_dec (buf m d)) as [H|H].
  - left. rewrite AsLELE_run by done. eauto.
  - right. apply AsLELE_fail. unfold len4_ok. lia.
Qed.

Lemma Encrypt_total (k : TeaKey) (in_ out : slice) (m : mem) :
  returns_or_misuse (Encrypt k in_ out) m.
Proof.
  destruct (block_check_dec (buf m in_) (buf m out)) as [H|H].
  - left. rewrite Encrypt_run by done. eauto.
  - right. by apply Encrypt_fail.
Qed.

Lemma Decrypt_total (k : TeaKey) (in_ out : slice) (m : mem) :
  returns_or_misuse (Decrypt k in_ out) m.
Proof.
  destruct (block_check_dec (buf m in_) (buf m out)) as [H|H].
  - left. rewrite Decrypt_run by done. eauto.
  - right. by apply Decrypt_fail.
Qed.

(** ** The key constructor of the specification *)

Lemma ConstructKey_None (b : list byte) :
  Spec.ConstructKey b = None <->
  length b <> 16%nat \/ Forall (fun x => x = x00) b.
Proof.
  unfold Spec.ConstructKey.
  destruct (Nat.eqb_spec (length b) 16) as [H16|Hne]; cbn [negb].
  2:{ split; [by left | done]. }
  destruct b as [|b0 [|b1 [|b2 [|b3 [|b4 [|b5 [|b6 [|b7 [|b8 [|b9 [|b10
    [|b11 [|b12 [|b13 [|b14 [|b15 [|? ?]]]]]]]]]]]]]]]]]; try discriminate H16.
  cbn [Spec.words_of_bytes lookup_total list_lookup_total k0 k1 k2 k3].
  match goal with |- context [?x =? 0] => destruct (Z.eqb_spec x 0) as [E|E] end.
  - split; [intros _; right | done].
    apply Z.lor_eq_0_iff in E as [E E3]. apply Z.lor_eq_0_iff in E as [E E2].
    apply Z.lor_eq_0_iff in E as [E0 E1].
    apply word_of_bytes_zero in E0 as (-> & -> & -> & ->).
    apply word_of_bytes_zero in E1 as (-> & -> & -> & ->).
    apply word_of_bytes_zero in E2 as (-> & -> & -> & ->).
    apply word_of_bytes_zero in E3 as (-> & -> & -> & ->).
    repeat constructor.
  - split; [done|]. intros [Hl | Hz]; [done|]. exfalso. apply E.
    repeat match goal with H : Forall _ (_ :: _) |- _ => inversion H; clear H; subst end.
    reflexivity.
Qed.

Lemma oversized_length : Z.of_nat (length oversized) = 4294967312.
Proof.
  unfold oversized. rewrite length_replicate. apply Z2Nat.id. discriminate.
Qed.

(** Below 2^32 bytes Encrypt and Decrypt panic exactly on the lengths the
    documentation excludes. *)
Lemma block_fails_iff_small (k : TeaKey) (in_ out : slice) (m : mem) :
  let li := Z.of_nat (length (buf m in_)) in
  let lo := Z.of_nat (length (buf m out)) in
  li < 2 ^ 32 -> lo < 2 ^ 32 ->
  (Encrypt k in_ out m = (Panicked (PanicMsg em), m)
   <-> li < 12 \/ li > 208 \/ li mod 4 <> 0 \/ li <> lo) /\
  (Decrypt k in_ out m = (Panicked (PanicMsg em), m)
   <-> li < 12 \/ li > 208 \/ li mod 4 <> 0 \/ li <> lo).
Proof.
  intros li lo Hi Ho.
  pose proof (block_check_small (buf m in_) (buf m out) Hi Ho) as Hs.
  fold li lo in Hs.
  destruct (block_check_dec (buf m in_) (buf m out)) as [H|H].
  - rewrite Encrypt_run, Decrypt_run by done.
    split; (split; [discriminate | intros Hbad; exfalso; apply Hs in H; lia]).
  - rewrite Encrypt_fail, Decrypt_fail by done.
    split; (split; [intros _ | done]).
    all: destruct (Z_lt_dec li 12); [lia|].
    all: destruct (Z_gt_dec li 208); [lia|].
    all: destruct (Z.eq_dec (li mod 4) 0); [|lia].
    all: destruct (Z.eq_dec li lo); [|lia].
    all: exfalso; apply H, Hs; lia.
Qed.

(** The lengths of the package's tests: 8, 9 and 212 bytes and a 16-byte
    input with a 32-byte output are rejected, 12 and 208 bytes are accepted. *)
Lemma length_validation_examples :
  let k := mkTeaKey 808530483 875902519 943276354 1128547654 in
  let a := 1%positive in
  let b := 2%positive in
  let run (f : TeaKey -> slice -> slice -> M slice) (x y : slice) (la lb : nat) :=
    (f k x y {[ a := replicate la x41; b := replicate lb x00 ]}).1 in
  Forall (fun f : TeaKey -> slice -> slice -> M slice =>
    run f a a 8%nat 0%nat = Panicked (PanicMsg em) /\
    run f a a 9%nat 0%nat = Panicked (PanicMsg em) /\
    run f a a 212%nat 0%nat = Panicked (PanicMsg em) /\
    run f a b 16%nat 32%nat = Panicked (PanicMsg em) /\
    run f a b 12%nat 12%nat = Ok b /\
    run f a b 208%nat 208%nat = Ok b) [Encrypt; Decrypt].
Proof. repeat constructor; vm_compute; reflexivity. Qed.

(** * Properties of the package *)

(** C1: for every key (those NewKey returns among them) and buffers of one
    valid length L, 12 <= L <= 208 and L a multiple of 4, decrypting what
    Encrypt wrote gives the message back.  The slices are arbitrary names:
    [in_], [out] and [out2] may be the same buffer (in place) or distinct. *)
Theorem Decrypt_Encrypt_roundtrip (k : TeaKey) (in_ out out2 : slice) (m : mem) :
  12 <= Z.of_nat (length (buf m in_)) <= 208 ->
  Z.of_nat (length (buf m in_)) mod 4 = 0 ->
  length (buf m out) = length (buf m in_) ->
  length (buf m out2) = length (buf m in_) ->
  exists m1 m2,
    Encrypt k in_ out m = (Ok out, m1) /\
    Decrypt k out out2 m1 = (Ok out2, m2) /\
    buf m2 out2 = buf m in_.
Proof.
  intros HL Hmod Hout Hout2.
  assert (H32 : Z.of_nat (length (buf m in_)) < 2 ^ 32)
    by (change (2 ^ 32) with 4294967296; lia).
  assert (Hchk : block_check (buf m in_) (buf m out))
    by (apply block_check_small; [lia | rewrite Hout; lia | done]).
  destruct (block_check_shape _ _ Hchk) as (N & HN & Hz & _ & _).
  rewrite wrap_small in Hz by lia.
  assert (HlenN : length (buf m in_) = (4 * N)%nat) by lia.
  pose proof (Spec_Encrypt_length k N _ HlenN) as HE.
  set (m1 := <[out := Spec.Encrypt k (buf m in_)]> m).
  assert (Ho1 : buf m1 out = Spec.Encrypt k (buf m in_)) by apply buf_insert_eq.
  assert (Ho2 : length (buf m1 out2) = (4 * N)%nat).
  { subst m1. destruct (decide (out = out2)) as [<-|Hne].
    - by rewrite buf_insert_eq.
    - rewrite buf_insert_ne by done. lia. }
  exists m1, (<[out2 := Spec.Decrypt k (Spec.Encrypt k (buf m in_))]> m1).
  split; [|split].
  - rewrite Encrypt_run by done. by rewrite block_result_exact.
  - rewrite Decrypt_run.
    + rewrite block_result_exact; rewrite Ho1; [done | | lia].
      rewrite HE. change (2 ^ 32) with 4294967296. lia.
    + apply block_check_small; rewrite ?Ho1, ?HE, ?Ho2;
        change (2 ^ 32) with 4294967296; try lia.
      split; [lia|]. split; [|lia]. Z.div_mod_to_equations. lia.
  - rewrite buf_insert_eq. apply (Spec_Decrypt_Encrypt k N); [lia | done].
Qed.

Lemma Decrypt_Encrypt_roundtrip_witness :
  let k := mkTeaKey 808530483 875902519 943276354 1128547654 in
  let b := 1%positive in
  let m : mem := {[ b := list_byte_of_string "Some message" ]} in
  12 <= Z.of_nat (length (buf m b)) <= 208 /\
  Z.of_nat (length (buf m b)) mod 4 = 0 /\
  exists m1 m2,
    Encrypt k b b m = (Ok b, m1) /\
    Decrypt k b b m1 = (Ok b, m2) /\
    buf m2 b = buf m b.
Proof.
  intros k b m.
  assert (HL : 12 <= Z.of_nat (length (buf m b)) <= 208)
    by (vm_compute; split; discriminate).
  assert (Hm : Z.of_nat (length (buf m b)) mod 4 = 0) by (vm_compute; reflexivity).
  split; [exact HL|]. split; [exact Hm|].
  exact (Decrypt_Encrypt_roundtrip k b b b m HL Hm eq_refl eq_refl).
Defined.

(** C2: on every key and every input of valid length L = 4N (with an output
    buffer of the same length), Encrypt leaves in [out] exactly what the
    algorithm of section 4.4 computes from the input: N words loaded
    big-endian, 6 + 52/N rounds, in each round sum += DELTA,
    e = (sum >> 2) & 3, every word v[p] for p = 0 .. N-2 and then v[N-1]
    incremented by MX with the key word (p & 3) ^ e, all modulo 2^32, and the
    words written back big-endian. *)
Theorem Encrypt_computes_spec (k : TeaKey) (in_ out : slice) (m : mem) :
  12 <= Z.of_nat (length (buf m in_)) <= 208 ->
  Z.of_nat (length (buf m in_)) mod 4 = 0 ->
  length (buf m out) = length (buf m in_) ->
  Encrypt k in_ out m = (Ok out, <[out := Spec.Encrypt k (buf m in_)]> m).
Proof.
  intros HL Hmod Hout.
  assert (H32 : Z.of_nat (length (buf m in_)) < 2 ^ 32)
    by (change (2 ^ 32) with 4294967296; lia).
  rewrite Encrypt_run.
  - by rewrite block_result_exact.
  - apply block_check_small; [lia | rewrite Hout; lia | done].
Qed.

Lemma Encrypt_computes_spec_witness :
  let k := mkTeaKey 808530483 875902519 943276354 1128547654 in
  let in_ := 1%positive in
  let out := 2%positive in
  let m : mem := {[ in_ := list_byte_of_string "Some message to encrypt here";
                    out := replicate 28 x00 ]} in
  12 <= Z.of_nat (length (buf m in_)) <= 208 /\
  Z.of_nat (length (buf m in_)) mod 4 = 0 /\
  length (buf m out) = length (buf m in_) /\
  Encrypt k in_ out m = (Ok out, <[out := Spec.Encrypt k (buf m in_)]> m).
Proof.
  intros k in_ out m.
  assert (HL : 12 <= Z.of_nat (length (buf m in_)) <= 208)
    by (vm_compute; split; discriminate).
  assert (Hm : Z.of_nat (length (buf m in_)) mod 4 = 0) by (vm_compute; reflexivity).
  assert (Ho : length (buf m out) = length (buf m in_)) by (vm_compute; reflexivity).
  split; [exact HL|]. split; [exact Hm|]. split; [exact Ho|].
  exact (Encrypt_computes_spec k in_ out m HL Hm Ho).
Defined.

(** C3 (fails on the code): with an input of 2^32 + 16 bytes and an output of
    16 bytes the lengths differ and the input is far longer than 208 bytes,
    yet neither Encrypt nor Decrypt panics: the test is made on
    uint32(len(in)), which is 16. *)
Theorem Encrypt_accepts_oversized_input :
  let k := mkTeaKey 808530483 875902519 943276354 1128547654 in
  let in_ := 1%positive in
  let out := 2%positive in
  let m : mem := <[in_ := oversized]> (<[out := replicate 16 x00]> ∅) in
  Z.of_nat (length (buf m in_)) = 4294967312 /\
  Z.of_nat (length (buf m out)) = 16 /\
  (exists m', Encrypt k in_ out m = (Ok out, m')) /\
  (exists m', Decrypt k in_ out m = (Ok out, m')).
Proof.
  intros k in_ out m.
  assert (Hin : buf m in_ = oversized) by apply buf_insert_eq.
  assert (Hout : buf m out = replicate 16 x00).
  { subst m. rewrite buf_insert_ne by discriminate. apply buf_insert_eq. }
  assert (Hli : Z.of_nat (length (buf m in_)) = 4294967312)
    by (rewrite Hin; apply oversized_length).
  assert (Hlo : Z.of_nat (length (buf m out)) = 16) by (by rewrite Hout).
  assert (Hchk : block_check (buf m in_) (buf m out)).
  { unfold block_check. rewrite Hli, Hlo. vm_compute.
    repeat split; discriminate. }
  split; [exact Hli|]. split; [exact Hlo|]. split.
  - rewrite Encrypt_run by exact Hchk. eauto.
  - rewrite Decrypt_run by exact Hchk. eauto.
Qed.

(** C4: NewKey panics exactly when the buffer is not 16 bytes long or all
    its bytes are zero, which for 16 bytes is the same as the OR of the four
    words being zero; on every other buffer it returns, without touching the
    store, the key whose word i is the big-endian value of bytes 4i .. 4i+3. *)
Theorem NewKey_fails_iff (b : slice) (m : mem) :
  let w := Spec.word_at (buf m b) in
  ((length (buf m b) <> 16%nat \/ Forall (fun x => x = x00) (buf m b))
   /\ NewKey b m = (Panicked (PanicMsg em), m)
   \/
   (length (buf m b) = 16%nat /\ ~ Forall (fun x => x = x00) (buf m b))
   /\ NewKey b m = (Ok (mkTeaKey (w 0%nat) (w 1%nat) (w 2%nat) (w 3%nat)), m))
  /\
  (length (buf m b) = 16%nat /\ Forall (fun x => x = x00) (buf m b)
   <-> length (buf m b) = 16%nat
       /\ Z.lor (Z.lor (Z.lor (w 0%nat) (w 1%nat)) (w 2%nat)) (w 3%nat) = 0).
Proof.
  intros w. subst w.
  pose proof (ConstructKey_None (buf m b)) as Hnone.
  rewrite NewKey_run.
  unfold Spec.ConstructKey in *.
  destruct (Nat.eqb_spec (length (buf m b)) 16) as [H16|Hne]; cbn [negb] in *.
  2:{ split; [left; split; [by left | done]|]. split; intros [? _]; done. }
  destruct (buf m b) as [|b0 [|b1 [|b2 [|b3 [|b4 [|b5 [|b6 [|b7 [|b8 [|b9 [|b10
    [|b11 [|b12 [|b13 [|b14 [|b15 [|? ?]]]]]]]]]]]]]]]]]; try discriminate H16.
  cbn [Spec.words_of_bytes lookup_total list_lookup_total k0 k1 k2 k3] in *.
  unfold Spec.word_at. cbn [nth Nat.mul Nat.add].
  match goal with |- context [?x =? 0] => destruct (Z.eqb_spec x 0) as [E|E] end.
  - assert (Hz : Forall (fun x => x = x00)
                   [b0; b1; b2; b3; b4; b5; b6; b7; b8; b9; b10; b11; b12; b13; b14; b15]).
    { destruct Hnone as [Hn _]. destruct (Hn eq_refl) as [?|?]; done. }
    split; [left; split; [by right | done]|]. split; intros _; done.
  - assert (Hz : ~ Forall (fun x => x = x00)
                   [b0; b1; b2; b3; b4; b5; b6; b7; b8; b9; b10; b11; b12; b13; b14; b15]).
    { intros Hz. destruct Hnone as [_ Hn]. discriminate Hn. by right. }
    split; [right; split; [done | reflexivity]|]. split; intros [_ ?]; done.
Qed.

(** C5: a call of NewKey, Encrypt, Decrypt, AsBELE, AsLEBE or AsLELE that
    does not return leaves every buffer of the store exactly as it was at
    the call: each call either returns, or panics with the store it was
    given. *)
Theorem failure_before_mutation (k : TeaKey) (key in_ out d : slice) (m : mem) :
  ((exists a m', NewKey key m = (Ok a, m')) \/ exists p, NewKey key m = (Panicked p, m)) /\
  ((exists a m', Encrypt k in_ out m = (Ok a, m'))
   \/ exists p, Encrypt k in_ out m = (Panicked p, m)) /\
  ((exists a m', Decrypt k in_ out m = (Ok a, m'))
   \/ exists p, Decrypt k in_ out m = (Panicked p, m)) /\
  ((exists a m', AsBELE d m = (Ok a, m')) \/ exists p, AsBELE d m = (Panicked p, m)) /\
  ((exists a m', AsLEBE d m = (Ok a, m')) \/ exists p, AsLEBE d m = (Panicked p, m)) /\
  ((exists a m', AsLELE d m = (Ok a, m')) \/ exists p, AsLELE d m = (Panicked p, m)).
Proof.
  pose proof (NewKey_total key m) as [H1|H1].
  all: pose proof (Encrypt_total k in_ out m) as [H2|H2].
  all: pose proof (Decrypt_total k in_ out m) as [H3|H3].
  all: pose proof (AsBELE_total d m) as [H4|H4].
  all: pose proof (AsLEBE_total d m) as [H5|H5].
  all: pose proof (AsLELE_total d m) as [H6|H6].
  all: repeat split; first [by left | right; eauto].
Qed.

(** C6: each of the three endian transforms is self-inverse on every buffer
    of at least 4 bytes whose length is a multiple of 4 (an odd number of
    4-byte groups included): running AsBELE, AsLEBE or AsLELE twice on the
    same slice returns the slice and restores the store. *)
Theorem endian_transforms_self_inverse (x : slice) (m : mem) :
  4 <= Z.of_nat (length (buf m x)) ->
  Z.of_nat (length (buf m x)) mod 4 = 0 ->
  (exists m1, AsBELE x m = (Ok x, m1) /\ AsBELE x m1 = (Ok x, m)) /\
  (exists m1, AsLEBE x m = (Ok x, m1) /\ AsLEBE x m1 = (Ok x, m)) /\
  (exists m1, AsLELE x m = (Ok x, m1) /\ AsLELE x m1 = (Ok x, m)).
Proof.
  intros H4 Hm.
  assert (Hok : len4_ok (buf m x)) by (by split).
  destruct (len4_ok_groups _ Hok) as (k & Hk & _).
  assert (Hd : m !! x = Some (buf m x)) by (apply buf_lookup_nonempty; lia).
  split; [|split].
  - eexists. split; [by apply AsBELE_run|].
    rewrite AsBELE_run; rewrite buf_insert_eq.
    + rewrite (ReverseWordOrder_involutive k), insert_insert_eq by done.
      by rewrite insert_id.
    + by apply len4_ok_ReverseWordOrder.
  - eexists. split; [by apply AsLEBE_run|].
    rewrite AsLEBE_run; rewrite buf_insert_eq.
    + rewrite (ReverseBytesPerWord_involutive k), insert_insert_eq by done.
      by rewrite insert_id.
    + by apply len4_ok_ReverseBytesPerWord.
  - eexists. split; [by apply AsLELE_run|].
    rewrite AsLELE_run; rewrite buf_insert_eq.
    + unfold Spec.ReverseWhole. rewrite reverse_involutive, insert_insert_eq.
      by rewrite insert_id.
    + by apply len4_ok_ReverseWhole.
Qed.

Lemma endian_transforms_self_inverse_witness :
  let x := 1%positive in
  let m : mem := {[ x := list_byte_of_string "CDEF89AB4567" ]} in
  4 <= Z.of_nat (length (buf m x)) /\
  Z.of_nat (length (buf m x)) mod 4 = 0 /\
  (exists m1, AsBELE x m = (Ok x, m1) /\ AsBELE x m1 = (Ok x, m)) /\
  (exists m1, AsLEBE x m = (Ok x, m1) /\ AsLEBE x m1 = (Ok x, m)) /\
  (exists m1, AsLELE x m = (Ok x, m1) /\ AsLELE x m1 = (Ok x, m)).
Proof.
  intros x m.
  assert (H4 : 4 <= Z.of_nat (length (buf m x))) by (vm_compute; discriminate).
  assert (Hm : Z.of_nat (length (buf m x)) mod 4 = 0) by (vm_compute; reflexivity).
  split; [exact H4|]. split; [exact Hm|].
  exact (endian_transforms_self_inverse x m H4 Hm).
Defined.

(** C7: on every buffer of at least 4 bytes whose length is a multiple of 4,
    AsLELE (reversal of the whole buffer) gives the same store as AsBELE
    followed by AsLEBE, and as AsLEBE followed by AsBELE. *)
Theorem AsLELE_is_composition (d : slice) (m : mem) :
  4 <= Z.of_nat (length (buf m d)) ->
  Z.of_nat (length (buf m d)) mod 4 = 0 ->
  exists r m1 m2,
    AsLELE d m = (Ok d, r) /\
    AsBELE d m = (Ok d, m1) /\ AsLEBE d m1 = (Ok d, r) /\
    AsLEBE d m = (Ok d, m2) /\ AsBELE d m2 = (Ok d, r).
Proof.
  intros H4 Hm.
  assert (Hok : len4_ok (buf m d)) by (by split).
  destruct (len4_ok_groups _ Hok) as (k & Hk & _).
  do 3 eexists.
  split; [by apply AsLELE_run|].
  split; [by apply AsBELE_run|].
  split.
  { rewrite AsLEBE_run; rewrite buf_insert_eq.
    - by rewrite (ReverseBytesPerWord_ReverseWordOrder k), insert_insert_eq.
    - by apply len4_ok_ReverseWordOrder. }
  split; [by apply AsLEBE_run|].
  rewrite AsBELE_run; rewrite buf_insert_eq.
  - by rewrite (ReverseWordOrder_ReverseBytesPerWord k), insert_insert_eq.
  - by apply len4_ok_ReverseBytesPerWord.
Qed.

Lemma AsLELE_is_composition_witness :
  let d := 1%positive in
  let m : mem := {[ d := list_byte_of_string "FEDCBA9876543210abcd" ]} in
  4 <= Z.of_nat (length (buf m d)) /\
  Z.of_nat (length (buf m d)) mod 4 = 0 /\
  exists r m1 m2,
    AsLELE d m = (Ok d, r) /\
    AsBELE d m = (Ok d, m1) /\ AsLEBE d m1 = (Ok d, r) /\
    AsLEBE d m = (Ok d, m2) /\ AsBELE d m2 = (Ok d, r).
Proof.
  intros d m.
  assert (H4 : 4 <= Z.of_nat (length (buf m d))) by (vm_compute; discriminate).
  assert (Hm : Z.of_nat (length (buf m d)) mod 4 = 0) by (vm_compute; reflexivity).
  split; [exact H4|]. split; [exact Hm|].
  exact (AsLELE_is_composition d m H4 Hm).
Defined.

(** C8: on the 16-byte vectors of the byte-layout table each transform
    recovers the canonical layout 0123456789ABCDEF: AsBELE from
    CDEF89AB45670123, AsLEBE from 32107654BA98FEDC and AsLELE from
    FEDCBA9876543210. *)
Theorem byte_layout_vectors :
  let d := 1%positive in
  let canonical : mem := {[ d := list_byte_of_string "0123456789ABCDEF" ]} in
  AsBELE d {[ d := list_byte_of_string "CDEF89AB45670123" ]} = (Ok d, canonical) /\
  AsLEBE d {[ d := list_byte_of_string "32107654BA98FEDC" ]} = (Ok d, canonical) /\
  AsLELE d {[ d := list_byte_of_string "FEDCBA9876543210" ]} = (Ok d, canonical).
Proof. repeat split; vm_compute; reflexivity. Qed.

(** C9: whenever the length test of Encrypt and Decrypt lets two buffers
    through, the word count n = z >> 2 computed from z = uint32(len(in)) is
    between 3 and 52 and both calls return: no index into the 52-word vector,
    into [in_] or into [out] is out of range, no division by zero occurs and
    the loops end. *)
Theorem block_accesses_in_bounds (k : TeaKey) (in_ out : slice) (m : mem) :
  let z := U32.wrap (Z.of_nat (length (buf m in_))) in
  12 <= z <= 208 ->
  z mod 4 = 0 ->
  z = U32.wrap (Z.of_nat (length (buf m out))) ->
  3 <= U32.shr z 2 <= 52 /\
  (exists m', Encrypt k in_ out m = (Ok out, m')) /\
  (exists m', Decrypt k in_ out m = (Ok out, m')).
Proof.
  intros z H1 H2 H3.
  assert (Hchk : block_check (buf m in_) (buf m out)) by done.
  split; [|split].
  - unfold U32.shr. rewrite Z.shiftr_div_pow2 by lia. change (2 ^ 2) with 4.
    Z.div_mod_to_equations. lia.
  - rewrite Encrypt_run by done. eauto.
  - rewrite Decrypt_run by done. eauto.
Qed.

Lemma block_accesses_in_bounds_witness :
  let k := mkTeaKey 808530483 875902519 943276354 1128547654 in
  let in_ := 1%positive in
  let out := 2%positive in
  let m : mem := {[ in_ := replicate 208 x41; out := replicate 208 x00 ]} in
  let z := U32.wrap (Z.of_nat (length (buf m in_))) in
  12 <= z <= 208 /\
  z mod 4 = 0 /\
  z = U32.wrap (Z.of_nat (length (buf m out))) /\
  3 <= U32.shr z 2 <= 52 /\
  (exists m', Encrypt k in_ out m = (Ok out, m')) /\
  (exists m', Decrypt k in_ out m = (Ok out, m')).
Proof.
  intros k in_ out m z.
  assert (H1 : 12 <= z <= 208) by (vm_compute; split; discriminate).
  assert (H2 : z mod 4 = 0) by (vm_compute; reflexivity).
  assert (H3 : z = U32.wrap (Z.of_nat (length (buf m out)))) by (vm_compute; reflexivity).
  split; [exact H1|]. split; [exact H2|]. split; [exact H3|].
  exact (block_accesses_in_bounds k in_ out m H1 H2 H3).
Defined.

(** C10: whenever NewKey, Encrypt, Decrypt, AsBELE, AsLEBE or AsLELE does
    not return, it panics with the one message [em]: too short, too long,
    misaligned, unequal lengths and the all-zero key are not told apart. *)
Theorem every_failure_is_em (k : TeaKey) (key in_ out d : slice) (m : mem) :
  ((exists a m', NewKey key m = (Ok a, m'))
   \/ exists m', NewKey key m = (Panicked (PanicMsg em), m')) /\
  ((exists a m', Encrypt k in_ out m = (Ok a, m'))
   \/ exists m', Encrypt k in_ out m = (Panicked (PanicMsg em), m')) /\
  ((exists a m', Decrypt k in_ out m = (Ok a, m'))
   \/ exists m', Decrypt k in_ out m = (Panicked (PanicMsg em), m')) /\
  ((exists a m', AsBELE d m = (Ok a, m'))
   \/ exists m', AsBELE d m = (Panicked (PanicMsg em), m')) /\
  ((exists a m', AsLEBE d m = (Ok a, m'))
   \/ exists m', AsLEBE d m = (Panicked (PanicMsg em), m')) /\
  ((exists a m', AsLELE d m = (Ok a, m'))
   \/ exists m', AsLELE d m = (Panicked (PanicMsg em), m')).
Proof.
  pose proof (NewKey_total key m) as [H1|H1].
  all: pose proof (Encrypt_total k in_ out m) as [H2|H2].
  all: pose proof (Decrypt_total k in_ out m) as [H3|H3].
  all: pose proof (AsBELE_total d m) as [H4|H4].
  all: pose proof (AsLEBE_total d m) as [H5|H5].
  all: pose proof (AsLELE_total d m) as [H6|H6].
  all: repeat split; first [by left | right; eauto].
Qed.

(** * Further properties of the package *)

(** ** Encrypt undoes Decrypt *)

Section PassesBack.
Variable key : TeaKey.
Variable N : nat.
Hypothesis HN : (2 <= N)%nat.

Lemma enc_upd_dec_upd (sum e : Z) (v : list Z) (p : nat) :
  words_ok N v -> (p < N)%nat ->
  enc_upd key N sum e (dec_upd key N sum e v p) p = v.
Proof.
  intros [Hl Hr] Hp.
  assert (Hmix : mix key N sum e (dec_upd key N sum e v p) p = mix key N sum e v p).
  { unfold mix, dec_upd.
    rewrite !list_lookup_total_insert_ne
      by (apply not_eq_sym; first [by apply succ_mod_ne | by apply pred_mod_ne]).
    reflexivity. }
  unfold enc_upd. rewrite Hmix. unfold dec_upd.
  rewrite list_lookup_total_insert_eq by lia.
  rewrite list_insert_insert_eq.
  apply list_insert_id'. intros _.
  assert (Hx : U32.in_range (v !!! p)).
  { eapply Forall_lookup_1; [exact Hr|]. apply list_lookup_lookup_total_lt. lia. }
  rewrite (list_lookup_lookup_total_lt v p) by lia. f_equal.
  unfold U32.in_range, U32.modulus in Hx.
  rewrite Zplus_mod_idemp_l.
  replace (v !!! p - mix key N sum e v p + mix key N sum e v p) with (v !!! p) by lia.
  symmetry. by apply Z.mod_small.
Qed.

Lemma enc_upds_dec_upds (sum e : Z) (ps : list nat) : forall v : list Z,
  words_ok N v -> Forall (fun p => (p < N)%nat) ps ->
  foldl (enc_upd key N sum e) (foldl (dec_upd key N sum e) v ps) (reverse ps) = v.
Proof.
  induction ps as [|p ps IH]; intros v Hv Hps; [done|].
  inversion Hps as [|? ? Hp Hps']; subst.
  rewrite reverse_cons, foldl_app. simpl.
  rewrite IH by (by try apply dec_upd_ok).
  by apply enc_upd_dec_upd.
Qed.

Lemma enc_pass_dec_pass (sum : Z) (v : list Z) :
  words_ok N v -> enc_pass key N sum (dec_pass key N sum v) = v.
Proof.
  intros Hv. unfold dec_pass, enc_pass.
  rewrite <- (reverse_involutive (seq 0 N)) at 2.
  apply enc_upds_dec_upds; [done|].
  apply Forall_forall. intros p Hp%elem_of_reverse%elem_of_seq. lia.
Qed.

Lemma dec_pass_ok (sum : Z) (v : list Z) :
  words_ok N v -> words_ok N (dec_pass key N sum v).
Proof. apply dec_upds_ok. Qed.

Lemma dec_passes_ok (r : nat) : forall (sum : Z) (v : list Z),
  words_ok N v -> words_ok N (dec_passes key N r sum v).
Proof.
  induction r as [|r IH]; intros sum v Hv; [done|].
  simpl. apply IH. by apply dec_pass_ok.
Qed.

Lemma enc_passes_dec_passes (r : nat) : forall (sum : Z) (v : list Z),
  words_ok N v ->
  enc_passes key N r sum
    (dec_passes key N r ((sum + Z.of_nat r * Spec.DELTA) mod 2 ^ 32) v) = v.
Proof.
  induction r as [|r IH]; intros sum v Hv; [done|].
  rewrite (enc_passes_last key N HN). cbn [dec_passes].
  rewrite Zminus_mod_idemp_l.
  replace (sum + Z.of_nat (S r) * Spec.DELTA - Spec.DELTA)
    with (sum + Z.of_nat r * Spec.DELTA) by lia.
  rewrite IH by (by apply dec_pass_ok).
  by apply enc_pass_dec_pass.
Qed.
End PassesBack.

Lemma Spec_Encrypt_Decrypt (k : TeaKey) (N : nat) (b : list byte) :
  (2 <= N)%nat -> length b = (4 * N)%nat ->
  Spec.Encrypt k (Spec.Decrypt k b) = b.
Proof.
  intros HN Hb.
  pose proof (words_of_bytes_length N b Hb) as Hl.
  assert (Hok : words_ok N (Spec.words_of_bytes b))
    by (split; [done | apply words_of_bytes_range]).
  unfold Spec.Decrypt. rewrite Hl.
  rewrite (dec_rounds_passes k N HN) by done. cbn [fst].
  pose proof (dec_passes_ok k N (6 + 52 / N)
                ((Z.of_nat (6 + 52 / N) * Spec.DELTA) mod 2 ^ 32) _ Hok) as [Hl' Hr'].
  unfold Spec.Encrypt.
  rewrite words_of_bytes_of_words by done. rewrite Hl'.
  rewrite (enc_rounds_passes k N HN) by done. cbn [fst].
  pose proof (enc_passes_dec_passes k N HN (6 + 52 / N) 0 _ Hok) as Hinv.
  rewrite Z.add_0_l in Hinv. rewrite Hinv.
  by apply (bytes_of_words_of_bytes N).
Qed.

(** X1: Encrypt undoes Decrypt as well: for every key and buffers of one
    valid length, encrypting what Decrypt wrote gives the input of Decrypt
    back, whatever slices are the same buffer. *)
Theorem Encrypt_after_Decrypt (k : TeaKey) (in_ out out2 : slice) (m : mem) :
  12 <= Z.of_nat (length (buf m in_)) <= 208 ->
  Z.of_nat (length (buf m in_)) mod 4 = 0 ->
  length (buf m out) = length (buf m in_) ->
  length (buf m out2) = length (buf m in_) ->
  exists m1 m2,
    Decrypt k in_ out m = (Ok out, m1) /\
    Encrypt k out out2 m1 = (Ok out2, m2) /\
    buf m2 out2 = buf m in_.
Proof.
  intros HL Hmod Hout Hout2.
  assert (H32 : Z.of_nat (length (buf m in_)) < 2 ^ 32)
    by (change (2 ^ 32) with 4294967296; lia).
  assert (Hchk : block_check (buf m in_) (buf m out))
    by (apply block_check_small; [lia | rewrite Hout; lia | done]).
  destruct (block_check_shape _ _ Hchk) as (N & HN & Hz & _ & _).
  rewrite wrap_small in Hz by lia.
  assert (HlenN : length (buf m in_) = (4 * N)%nat) by lia.
  pose proof (Spec_Decrypt_length k N _ HlenN) as HD.
  set (m1 := <[out := Spec.Decrypt k (buf m in_)]> m).
  assert (Ho1 : buf m1 out = Spec.Decrypt k (buf m in_)) by apply buf_insert_eq.
  assert (Ho2 : length (buf m1 out2) = (4 * N)%nat).
  { subst m1. destruct (decide (out = out2)) as [<-|Hne].
    - by rewrite buf_insert_eq.
    - rewrite buf_insert_ne by done. lia. }
  exists m1, (<[out2 := Spec.Encrypt k (Spec.Decrypt k (buf m in_))]> m1).
  split; [|split].
  - rewrite Decrypt_run by done. by rewrite block_result_exact.
  - rewrite Encrypt_run.
    + rewrite block_result_exact; rewrite Ho1; [done | | lia].
      rewrite HD. change (2 ^ 32) with 4294967296. lia.
    + apply block_check_small; rewrite ?Ho1, ?HD, ?Ho2;
        change (2 ^ 32) with 4294967296; try lia.
      split; [lia|]. split; [|lia]. Z.div_mod_to_equations. lia.
  - rewrite buf_insert_eq. apply (Spec_Encrypt_Decrypt k N); [lia | done].
Qed.

Lemma Encrypt_after_Decrypt_witness :
  let k := mkTeaKey 808530483 875902519 943276354 1128547654 in
  let a := 1%positive in
  let b := 2%positive in
  let m : mem := {[ a := list_byte_of_string "0123456789abcdef";
                    b := replicate 16 x00 ]} in
  12 <= Z.of_nat (length (buf m a)) <= 208 /\
  Z.of_nat (length (buf m a)) mod 4 = 0 /\
  exists m1 m2,
    Decrypt k a b m = (Ok b, m1) /\
    Encrypt k b b m1 = (Ok b, m2) /\
    buf m2 b = buf m a.
Proof.
  intros k a b m.
  assert (HL : 12 <= Z.of_nat (length (buf m a)) <= 208)
    by (vm_compute; split; discriminate).
  assert (Hm : Z.of_nat (length (buf m a)) mod 4 = 0) by (vm_compute; reflexivity).
  split; [exact HL|]. split; [exact Hm|].
  exact (Encrypt_after_Decrypt k a b b m HL Hm eq_refl eq_refl).
Defined.

(** X2: under one key Encrypt is injective on messages of valid length:
    two calls that leave the same bytes in their outputs were given the same
    message. *)
Theorem Encrypt_injective (k : TeaKey) (in1 out1 in2 out2 : slice)
    (m1 m2 m1' m2' : mem) :
  12 <= Z.of_nat (length (buf m1 in1)) <= 208 ->
  12 <= Z.of_nat (length (buf m2 in2)) <= 208 ->
  length (buf m1 out1) = length (buf m1 in1) ->
  length (buf m2 out2) = length (buf m2 in2) ->
  Encrypt k in1 out1 m1 = (Ok out1, m1') ->
  Encrypt k in2 out2 m2 = (Ok out2, m2') ->
  buf m1' out1 = buf m2' out2 ->
  buf m1 in1 = buf m2 in2.
Proof.
  intros HL1 HL2 Ho1 Ho2 HE1 HE2 Heq.
  assert (H1 : Z.of_nat (length (buf m1 in1)) < 2 ^ 32)
    by (change (2 ^ 32) with 4294967296; lia).
  assert (H2 : Z.of_nat (length (buf m2 in2)) < 2 ^ 32)
    by (change (2 ^ 32) with 4294967296; lia).
  destruct (block_check_dec (buf m1 in1) (buf m1 out1)) as [C1|C1];
    [|rewrite Encrypt_fail in HE1 by done; discriminate].
  destruct (block_check_dec (buf m2 in2) (buf m2 out2)) as [C2|C2];
    [|rewrite Encrypt_fail in HE2 by done; discriminate].
  rewrite Encrypt_run, block_result_exact in HE1 by done.
  rewrite Encrypt_run, block_result_exact in HE2 by done.
  injection HE1 as <-. injection HE2 as <-.
  rewrite !buf_insert_eq in Heq.
  destruct (block_check_shape _ _ C1) as (N1 & HN1 & Hz1 & _ & _).
  destruct (block_check_shape _ _ C2) as (N2 & HN2 & Hz2 & _ & _).
  rewrite wrap_small in Hz1, Hz2 by lia.
  rewrite <- (Spec_Decrypt_Encrypt k N1 (buf m1 in1)) by lia.
  rewrite <- (Spec_Decrypt_Encrypt k N2 (buf m2 in2)) by lia.
  by rewrite Heq.
Qed.

Lemma Encrypt_injective_witness :
  let k := mkTeaKey 808530483 875902519 943276354 1128547654 in
  let a := 1%positive in
  let b := 2%positive in
  let m : mem := {[ a := list_byte_of_string "Some message"; b := replicate 12 x00 ]} in
  let m1' := (Encrypt k a b m).2 in
  let m2' := (Encrypt k a a m).2 in
  12 <= Z.of_nat (length (buf m a)) <= 208 /\
  length (buf m b) = length (buf m a) /\
  Encrypt k a b m = (Ok b, m1') /\
  Encrypt k a a m = (Ok a, m2') /\
  buf m1' b = buf m2' a /\
  buf m a = buf m a.
Proof.
  intros k a b m m1' m2'.
  assert (HL : 12 <= Z.of_nat (length (buf m a)) <= 208)
    by (vm_compute; split; discriminate).
  assert (Ho : length (buf m b) = length (buf m a)) by (vm_compute; reflexivity).
  assert (E1 : Encrypt k a b m = (Ok b, m1')) by (vm_compute; reflexivity).
  assert (E2 : Encrypt k a a m = (Ok a, m2')) by (vm_compute; reflexivity).
  assert (Eq : buf m1' b = buf m2' a) by (vm_compute; reflexivity).
  split; [exact HL|]. split; [exact Ho|].
  split; [exact E1|]. split; [exact E2|]. split; [exact Eq|].
  exact (Encrypt_injective k a b a a m m m1' m2' HL HL Ho eq_refl E1 E2 Eq).
Defined.



(** X4: what Encrypt and Decrypt leave in [out] depends on the key and on
    the bytes of the input only: two calls on equal messages of valid length
    write the same bytes, whether the output is the input buffer itself or
    another buffer, and whatever that buffer held before. *)
Theorem block_result_depends_on_input_only (k : TeaKey) (in1 out1 in2 out2 : slice)
    (m1 m2 : mem) :
  12 <= Z.of_nat (length (buf m1 in1)) <= 208 ->
  Z.of_nat (length (buf m1 in1)) mod 4 = 0 ->
  buf m1 in1 = buf m2 in2 ->
  length (buf m1 out1) = length (buf m1 in1) ->
  length (buf m2 out2) = length (buf m2 in2) ->
  (exists m1' m2',
     Encrypt k in1 out1 m1 = (Ok out1, m1') /\
     Encrypt k in2 out2 m2 = (Ok out2, m2') /\
     buf m1' out1 = buf m2' out2) /\
  (exists m1' m2',
     Decrypt k in1 out1 m1 = (Ok out1, m1') /\
     Decrypt k in2 out2 m2 = (Ok out2, m2') /\
     buf m1' out1 = buf m2' out2).
Proof.
  intros HL Hmod Heq Ho1 Ho2.
  assert (H1 : Z.of_nat (length (buf m1 in1)) < 2 ^ 32)
    by (change (2 ^ 32) with 4294967296; lia).
  assert (C1 : block_check (buf m1 in1) (buf m1 out1))
    by (apply block_check_small; [lia | rewrite Ho1; lia | done]).
  assert (C2 : block_check (buf m2 in2) (buf m2 out2))
    by (apply block_check_small; rewrite ?Ho2, <- ?Heq; [lia | lia | done]).
  split.
  - do 2 eexists. rewrite !Encrypt_run by done.
    split; [reflexivity|]. split; [reflexivity|].
    rewrite !buf_insert_eq.
    rewrite (block_result_exact _ (buf m1 in1)) by done.
    rewrite (block_result_exact _ (buf m2 in2))
      by first [exact Ho2 | rewrite <- Heq; exact H1].
    by rewrite Heq.
  - do 2 eexists. rewrite !Decrypt_run by done.
    split; [reflexivity|]. split; [reflexivity|].
    rewrite !buf_insert_eq.
    rewrite (block_result_exact _ (buf m1 in1)) by done.
    rewrite (block_result_exact _ (buf m2 in2))
      by first [exact Ho2 | rewrite <- Heq; exact H1].
    by rewrite Heq.
Qed.

Lemma block_result_depends_on_input_only_witness :
  let k := mkTeaKey 808530483 875902519 943276354 1128547654 in
  let a := 1%positive in
  let b := 2%positive in
  let m : mem := {[ a := list_byte_of_string "Some message";
                    b := list_byte_of_string "old contents" ]} in
  12 <= Z.of_nat (length (buf m a)) <= 208 /\
  Z.of_nat (length (buf m a)) mod 4 = 0 /\
  length (buf m b) = length (buf m a) /\
  (exists m1' m2',
     Encrypt k a a m = (Ok a, m1') /\
     Encrypt k a b m = (Ok b, m2') /\
     buf m1' a = buf m2' b) /\
  (exists m1' m2',
     Decrypt k a a m = (Ok a, m1') /\
     Decrypt k a b m = (Ok b, m2') /\
     buf m1' a = buf m2' b).
Proof.
  intros k a b m.
  assert (HL : 12 <= Z.of_nat (length (buf m a)) <= 208)
    by (vm_compute; split; discriminate).
  assert (Hm : Z.of_nat (length (buf m a)) mod 4 = 0) by (vm_compute; reflexivity).
  assert (Ho : length (buf m b) = length (buf m a)) by (vm_compute; reflexivity).
  split; [exact HL|]. split; [exact Hm|]. split; [exact Ho|].
  exact (block_result_depends_on_input_only k a a a b m m HL Hm eq_refl eq_refl Ho).
Defined.

(** X5: the exact condition under which Encrypt and Decrypt panic, for all
    buffers however long: with z = uint32(len(in)), they panic (with [em],
    store untouched) when z < 12, z > 208, z is no multiple of 4 or
    z != uint32(len(out)), and they return [out] in every other case. *)
Theorem block_panics_iff (k : TeaKey) (in_ out : slice) (m : mem) :
  let z := U32.wrap (Z.of_nat (length (buf m in_))) in
  let z' := U32.wrap (Z.of_nat (length (buf m out))) in
  (Encrypt k in_ out m = (Panicked (PanicMsg em), m)
   <-> z < 12 \/ z > 208 \/ z mod 4 <> 0 \/ z <> z') /\
  (Decrypt k in_ out m = (Panicked (PanicMsg em), m)
   <-> z < 12 \/ z > 208 \/ z mod 4 <> 0 \/ z <> z') /\
  ((exists m', Encrypt k in_ out m = (Ok out, m'))
   <-> 12 <= z <= 208 /\ z mod 4 = 0 /\ z = z') /\
  ((exists m', Decrypt k in_ out m = (Ok out, m'))
   <-> 12 <= z <= 208 /\ z mod 4 = 0 /\ z = z').
Proof.
  intros z z'.
  destruct (block_check_dec (buf m in_) (buf m out)) as [H|H].
  - rewrite Encrypt_run, Decrypt_run by done.
    unfold block_check in H. fold z z' in H. destruct H as (A & B & C).
    split; [|split; [|split]].
    + split; [discriminate | lia].
    + split; [discriminate | lia].
    + split; [intros _; lia | intros _; eauto].
    + split; [intros _; lia | intros _; eauto].
  - rewrite Encrypt_fail, Decrypt_fail by done.
    unfold block_check in H. fold z z' in H.
    assert (Hbad : z < 12 \/ z > 208 \/ z mod 4 <> 0 \/ z <> z').
    { destruct (Z_lt_dec z 12); [lia|]. destruct (Z_gt_dec z 208); [lia|].
      destruct (Z.eq_dec (z mod 4) 0); [|lia]. destruct (Z.eq_dec z z'); [|lia].
      exfalso. apply H. lia. }
    split; [|split; [|split]].
    + split; [intros _; exact Hbad | done].
    + split; [intros _; exact Hbad | done].
    + split; [intros [? ?]; discriminate | intros ?; exfalso; lia].
    + split; [intros [? ?]; discriminate | intros ?; exfalso; lia].
Qed.

(** X6: on every key and every input of valid length L = 4N, with an output
    buffer of the same length, Decrypt leaves in [out] what the rounds of
    section 4.5 compute: the words loaded big-endian, sum starting at
    rounds * DELTA, in each of the 6 + 52/N rounds every word v[p] for
    p = N-1 .. 1 and then v[0] decremented by MX, then sum -= DELTA, and the
    words written back big-endian. *)
Theorem Decrypt_computes_spec (k : TeaKey) (in_ out : slice) (m : mem) :
  12 <= Z.of_nat (length (buf m in_)) <= 208 ->
  Z.of_nat (length (buf m in_)) mod 4 = 0 ->
  length (buf m out) = length (buf m in_) ->
  Decrypt k in_ out m = (Ok out, <[out := Spec.Decrypt k (buf m in_)]> m).
Proof.
  intros HL Hmod Hout.
  assert (H32 : Z.of_nat (length (buf m in_)) < 2 ^ 32)
    by (change (2 ^ 32) with 4294967296; lia).
  rewrite Decrypt_run.
  - by rewrite block_result_exact.
  - apply block_check_small; [lia | rewrite Hout; lia | done].
Qed.

Lemma Decrypt_computes_spec_witness :
  let k := mkTeaKey 808530483 875902519 943276354 1128547654 in
  let in_ := 1%positive in
  let out := 2%positive in
  let m : mem := {[ in_ := list_byte_of_string "Some message to encrypt here";
                    out := replicate 28 x00 ]} in
  12 <= Z.of_nat (length (buf m in_)) <= 208 /\
  Z.of_nat (length (buf m in_)) mod 4 = 0 /\
  length (buf m out) = length (buf m in_) /\
  Decrypt k in_ out m = (Ok out, <[out := Spec.Decrypt k (buf m in_)]> m).
Proof.
  intros k in_ out m.
  assert (HL : 12 <= Z.of_nat (length (buf m in_)) <= 208)
    by (vm_compute; split; discriminate).
  assert (Hm : Z.of_nat (length (buf m in_)) mod 4 = 0) by (vm_compute; reflexivity).
  assert (Ho : length (buf m out) = length (buf m in_)) by (vm_compute; reflexivity).
  split; [exact HL|]. split; [exact Hm|]. split; [exact Ho|].
  exact (Decrypt_computes_spec k in_ out m HL Hm Ho).
Defined.

(** ** Positions in a buffer of whole 4-byte groups *)

Lemma concat_lookup4 (gs : list (list byte)) : forall (q r : nat),
  Forall (fun g => length g = 4%nat) gs -> (r < 4)%nat ->
  concat gs !! (4 * q + r)%nat = gs !! q ≫= (fun g => g !! r).
Proof.
  induction gs as [|g gs IH]; intros q r HF Hr; [done|].
  inversion HF as [|? ? Hg HF']; subst. cbn [concat].
  destruct q as [|q].
  - rewrite Nat.mul_0_r, Nat.add_0_l. by rewrite lookup_app_l by lia.
  - rewrite lookup_app_r by lia.
    replace (4 * S q + r - length g)%nat with (4 * q + r)%nat by lia.
    by rewrite IH.
Qed.

Lemma groups_lookup (k : nat) (b : list byte) (q r : nat) :
  length b = (4 * k)%nat -> (r < 4)%nat ->
  b !! (4 * q + r)%nat = Spec.groups b !! q ≫= (fun g => g !! r).
Proof.
  intros Hb Hr. destruct (groups_length k b Hb) as [_ HF].
  rewrite <- (concat_groups k b Hb) at 1. by apply concat_lookup4.
Qed.

Lemma ReverseWhole_lookup (b : list byte) (i : nat) :
  (i < length b)%nat ->
  Spec.ReverseWhole b !! i = b !! (length b - 1 - i)%nat.
Proof.
  intros Hi. unfold Spec.ReverseWhole. rewrite reverse_lookup by done.
  f_equal. lia.
Qed.

Lemma ReverseBytesPerWord_lookup (k : nat) (b : list byte) (q r : nat) :
  length b = (4 * k)%nat -> (q < k)%nat -> (r < 4)%nat ->
  Spec.ReverseBytesPerWord b !! (4 * q + r)%nat = b !! (4 * q + (3 - r))%nat.
Proof.
  intros Hb Hq Hr. destruct (groups_length k b Hb) as [Hk HF].
  unfold Spec.ReverseBytesPerWord.
  rewrite (concat_lookup4 _ q r)
    by first [by apply Forall_length_reverse_groups | done].
  rewrite (groups_lookup k _ q (3 - r)) by first [done | lia].
  rewrite list_lookup_fmap.
  destruct (Spec.groups b !! q) as [g|] eqn:Eg; [|done]. simpl.
  pose proof (Forall_lookup_1 _ _ _ _ HF Eg) as Hg. simpl in Hg.
  rewrite reverse_lookup by lia. f_equal. lia.
Qed.

Lemma ReverseWordOrder_lookup (k : nat) (b : list byte) (q r : nat) :
  length b = (4 * k)%nat -> (q < k)%nat -> (r < 4)%nat ->
  Spec.ReverseWordOrder b !! (4 * q + r)%nat = b !! (4 * (k - 1 - q) + r)%nat.
Proof.
  intros Hb Hq Hr. destruct (groups_length k b Hb) as [Hk HF].
  unfold Spec.ReverseWordOrder.
  rewrite (concat_lookup4 _ q r) by first [by apply Forall_reverse | done].
  rewrite (groups_lookup k _ (k - 1 - q) r) by done.
  rewrite reverse_lookup by lia. rewrite Hk.
  by replace (k - S q)%nat with (k - 1 - q)%nat by lia.
Qed.

(** X7: a helper that returns has returned the slice it was given, has only
    rearranged the bytes of that buffer (the same bytes, as many of each) and
    has left every other buffer of the store untouched. *)
Theorem endian_helpers_rearrange (d r : slice) (m m' : mem) :
  AsBELE d m = (Ok r, m') \/ AsLEBE d m = (Ok r, m') \/ AsLELE d m = (Ok r, m') ->
  r = d /\
  buf m' d ≡ₚ buf m d /\
  forall s : slice, s <> d -> buf m' s = buf m s.
Proof.
  intros H.
  destruct (len4_ok_dec (buf m d)) as [Hok|Hbad].
  2:{ assert (Hn : ~ len4_ok (buf m d)) by (unfold len4_ok; lia).
      destruct H as [H | [H | H]];
        [rewrite AsBELE_fail in H by done | rewrite AsLEBE_fail in H by done
        | rewrite AsLELE_fail in H by done]; discriminate. }
  destruct (len4_ok_groups _ Hok) as (k & Hk & _).
  assert (Hperm : exists b', m' = <[d := b']> m /\ r = d /\ b' ≡ₚ buf m d).
  { destruct H as [H | [H | H]].
    - rewrite AsBELE_run in H by done. injection H as <- <-.
      eexists. split; [done|]. split; [done|].
      unfold Spec.ReverseWordOrder. rewrite reverse_Permutation.
      by rewrite (concat_groups k).
    - rewrite AsLEBE_run in H by done. injection H as <- <-.
      eexists. split; [done|]. split; [done|].
      rewrite <- (concat_groups k (buf m d) Hk) at 2.
      unfold Spec.ReverseBytesPerWord.
      induction (Spec.groups (buf m d)) as [|g gs IH]; [done|].
      rewrite fmap_cons. simpl. by rewrite reverse_Permutation, IH.
    - rewrite AsLELE_run in H by done. injection H as <- <-.
      eexists. split; [done|]. split; [done|]. apply reverse_Permutation. }
  destruct Hperm as (b' & -> & -> & Hp).
  split; [done|]. split.
  - by rewrite buf_insert_eq.
  - intros s Hs. by apply buf_insert_ne.
Qed.

Lemma endian_helpers_rearrange_witness :
  let d := 1%positive in
  let m : mem := {[ d := list_byte_of_string "CDEF89AB4567";
                    2%positive := list_byte_of_string "other" ]} in
  let m' := (AsBELE d m).2 in
  (AsBELE d m = (Ok d, m') \/ AsLEBE d m = (Ok d, m') \/ AsLELE d m = (Ok d, m')) /\
  d = d /\
  buf m' d ≡ₚ buf m d /\
  forall s : slice, s <> d -> buf m' s = buf m s.
Proof.
  intros d m m'.
  assert (E : AsBELE d m = (Ok d, m') \/ AsLEBE d m = (Ok d, m')
              \/ AsLELE d m = (Ok d, m')) by (left; vm_compute; reflexivity).
  split; [exact E|].
  exact (endian_helpers_rearrange d d m m' E).
Defined.

(** X8: on a buffer of n >= 4 bytes, n a multiple of 4, AsLELE puts at
    every position i the byte that was at position n - 1 - i. *)
Theorem AsLELE_positions (d : slice) (m : mem) :
  4 <= Z.of_nat (length (buf m d)) ->
  Z.of_nat (length (buf m d)) mod 4 = 0 ->
  exists m',
    AsLELE d m = (Ok d, m') /\
    forall i : nat, (i < length (buf m d))%nat ->
      buf m' d !! i = buf m d !! (length (buf m d) - 1 - i)%nat.
Proof.
  intros H4 Hm. assert (Hok : len4_ok (buf m d)) by done.
  eexists. split; [by apply AsLELE_run|].
  intros i Hi. rewrite buf_insert_eq. by apply ReverseWhole_lookup.
Qed.

Lemma AsLELE_positions_witness :
  let d := 1%positive in
  let m : mem := {[ d := list_byte_of_string "FEDCBA987654" ]} in
  4 <= Z.of_nat (length (buf m d)) /\
  Z.of_nat (length (buf m d)) mod 4 = 0 /\
  exists m',
    AsLELE d m = (Ok d, m') /\
    forall i : nat, (i < length (buf m d))%nat ->
      buf m' d !! i = buf m d !! (length (buf m d) - 1 - i)%nat.
Proof.
  intros d m.
  assert (H4 : 4 <= Z.of_nat (length (buf m d))) by (vm_compute; discriminate).
  assert (Hm : Z.of_nat (length (buf m d)) mod 4 = 0) by (vm_compute; reflexivity).
  split; [exact H4|]. split; [exact Hm|].
  exact (AsLELE_positions d m H4 Hm).
Defined.

(** X9: on a buffer of k >= 1 whole 4-byte groups AsLEBE puts at byte r of
    group q the byte that was at byte 3 - r of the same group. *)
Theorem AsLEBE_positions (d : slice) (m : mem) (k : nat) :
  (1 <= k)%nat -> length (buf m d) = (4 * k)%nat ->
  exists m',
    AsLEBE d m = (Ok d, m') /\
    forall q r : nat, (q < k)%nat -> (r < 4)%nat ->
      buf m' d !! (4 * q + r)%nat = buf m d !! (4 * q + (3 - r))%nat.
Proof.
  intros Hk Hl.
  assert (Hok : len4_ok (buf m d)).
  { unfold len4_ok. rewrite Hl. split; [lia|]. Z.div_mod_to_equations. lia. }
  eexists. split; [by apply AsLEBE_run|].
  intros q r Hq Hr. rewrite buf_insert_eq. by apply (ReverseBytesPerWord_lookup k).
Qed.

Lemma AsLEBE_positions_witness :
  let d := 1%positive in
  let m : mem := {[ d := list_byte_of_string "32107654BA98" ]} in
  (1 <= 3)%nat /\ length (buf m d) = (4 * 3)%nat /\
  exists m',
    AsLEBE d m = (Ok d, m') /\
    forall q r : nat, (q < 3)%nat -> (r < 4)%nat ->
      buf m' d !! (4 * q + r)%nat = buf m d !! (4 * q + (3 - r))%nat.
Proof.
  intros d m.
  assert (Hk : (1 <= 3)%nat) by lia.
  assert (Hl : length (buf m d) = (4 * 3)%nat) by (vm_compute; reflexivity).
  split; [exact Hk|]. split; [exact Hl|].
  exact (AsLEBE_positions d m 3 Hk Hl).
Defined.

(** X10: on a buffer of k >= 1 whole 4-byte groups AsBELE puts at byte r of
    group q the byte that was at byte r of group k - 1 - q: the groups are
    in reverse order, each group as it was (the middle group of an odd k
    stays where it is). *)
Theorem AsBELE_positions (d : slice) (m : mem) (k : nat) :
  (1 <= k)%nat -> length (buf m d) = (4 * k)%nat ->
  exists m',
    AsBELE d m = (Ok d, m') /\
    forall q r : nat, (q < k)%nat -> (r < 4)%nat ->
      buf m' d !! (4 * q + r)%nat = buf m d !! (4 * (k - 1 - q) + r)%nat.
Proof.
  intros Hk Hl.
  assert (Hok : len4_ok (buf m d)).
  { unfold len4_ok. rewrite Hl. split; [lia|]. Z.div_mod_to_equations. lia. }
  eexists. split; [by apply AsBELE_run|].
  intros q r Hq Hr. rewrite buf_insert_eq. by apply (ReverseWordOrder_lookup k).
Qed.

Lemma AsBELE_positions_witness :
  let d := 1%positive in
  let m : mem := {[ d := list_byte_of_string "CDEF89AB4567" ]} in
  (1 <= 3)%nat /\ length (buf m d) = (4 * 3)%nat /\
  exists m',
    AsBELE d m = (Ok d, m') /\
    forall q r : nat, (q < 3)%nat -> (r < 4)%nat ->
      buf m' d !! (4 * q + r)%nat = buf m d !! (4 * (3 - 1 - q) + r)%nat.
Proof.
  intros d m.
  assert (Hk : (1 <= 3)%nat) by lia.
  assert (Hl : length (buf m d) = (4 * 3)%nat) by (vm_compute; reflexivity).
  split; [exact Hk|]. split; [exact Hl|].
  exact (AsBELE_positions d m 3 Hk Hl).
Defined.

(** ** Keys from the other byte layouts *)

Lemma bswap32_word (b0 b1 b2 b3 : byte) :
  bswap32 (Spec.word_of_bytes b0 b1 b2 b3) = Spec.word_of_bytes b3 b2 b1 b0.
Proof.
  unfold bswap32. rewrite !to_byte_shr by lia. rewrite from_bytes_word.
  pose proof (bytes_of_word_of_bytes b0 b1 b2 b3) as H.
  unfold Spec.bytes_of_word in H. injection H as H0 H1 H2 H3.
  by rewrite H0, H1, H2, H3.
Qed.

Lemma ConstructKey_16 (b0 b1 b2 b3 b4 b5 b6 b7 b8 b9 b10 b11 b12 b13 b14 b15 : byte) :
  let b := [b0; b1; b2; b3; b4; b5; b6; b7; b8; b9; b10; b11; b12; b13; b14; b15] in
  let k := mkTeaKey (Spec.word_of_bytes b0 b1 b2 b3) (Spec.word_of_bytes b4 b5 b6 b7)
             (Spec.word_of_bytes b8 b9 b10 b11) (Spec.word_of_bytes b12 b13 b14 b15) in
  ~ Forall (fun x => x = x00) b -> Spec.ConstructKey b = Some k.
Proof.
  intros b k Hz. pose proof (ConstructKey_None b) as Hn.
  destruct (Spec.ConstructKey b) as [k'|] eqn:E.
  - revert E. unfold Spec.ConstructKey. subst b. cbn [length Nat.eqb negb].
    cbn [Spec.words_of_bytes lookup_total list_lookup_total].
    match goal with |- context [?x =? 0] => destruct (x =? 0) end; [done|].
    by intros [= <-].
  - exfalso. destruct Hn as [Hn _]. destruct (Hn eq_refl) as [Hl|Hz']; [|done].
    by apply Hl.
Qed.

Lemma NewKey_Ok_inv (d : slice) (k : TeaKey) (m m' : mem) :
  NewKey d m = (Ok k, m') ->
  m' = m /\
  exists b0 b1 b2 b3 b4 b5 b6 b7 b8 b9 b10 b11 b12 b13 b14 b15,
    buf m d = [b0; b1; b2; b3; b4; b5; b6; b7; b8; b9; b10; b11; b12; b13; b14; b15]
    /\ ~ Forall (fun x => x = x00) (buf m d)
    /\ k = mkTeaKey (Spec.word_of_bytes b0 b1 b2 b3) (Spec.word_of_bytes b4 b5 b6 b7)
             (Spec.word_of_bytes b8 b9 b10 b11) (Spec.word_of_bytes b12 b13 b14 b15).
Proof.
  rewrite NewKey_run. intros H.
  destruct (Spec.ConstructKey (buf m d)) as [k'|] eqn:E; [|discriminate].
  injection H as Hk Hm. subst k' m'. split; [done|].
  assert (H16 : length (buf m d) = 16%nat).
  { destruct (decide (length (buf m d) = 16%nat)) as [?|Hne]; [done|].
    assert (Hn : Spec.ConstructKey (buf m d) = None)
      by (apply ConstructKey_None; by left).
    congruence. }
  destruct (buf m d) as [|b0 [|b1 [|b2 [|b3 [|b4 [|b5 [|b6 [|b7 [|b8 [|b9 [|b10
    [|b11 [|b12 [|b13 [|b14 [|b15 [|? ?]]]]]]]]]]]]]]]]]; try discriminate H16.
  exists b0, b1, b2, b3, b4, b5, b6, b7, b8, b9, b10, b11, b12, b13, b14, b15.
  assert (Hz : ~ Forall (fun x => x = x00)
                  [b0; b1; b2; b3; b4; b5; b6; b7; b8; b9; b10; b11; b12; b13; b14; b15]).
  { intros Hz. assert (Hn : Spec.ConstructKey
      [b0; b1; b2; b3; b4; b5; b6; b7; b8; b9; b10; b11; b12; b13; b14; b15] = None)
      by (apply ConstructKey_None; by right).
    congruence. }
  rewrite ConstructKey_16 in E by done.
  injection E as <-. done.
Qed.

Lemma NewKey_16 (d : slice) (m : mem)
    (b0 b1 b2 b3 b4 b5 b6 b7 b8 b9 b10 b11 b12 b13 b14 b15 : byte) :
  buf m d = [b0; b1; b2; b3; b4; b5; b6; b7; b8; b9; b10; b11; b12; b13; b14; b15] ->
  ~ Forall (fun x => x = x00) (buf m d) ->
  NewKey d m
  = (Ok (mkTeaKey (Spec.word_of_bytes b0 b1 b2 b3) (Spec.word_of_bytes b4 b5 b6 b7)
           (Spec.word_of_bytes b8 b9 b10 b11) (Spec.word_of_bytes b12 b13 b14 b15)), m).
Proof.
  intros Hb Hz. rewrite NewKey_run. rewrite Hb in *. by rewrite ConstructKey_16.
Qed.

(** X11: a key buffer whose four words are stored last word first is made
    canonical by AsBELE: if NewKey accepts a 16-byte buffer and returns the
    words (k0, k1, k2, k3), then after AsBELE on that buffer NewKey returns
    (k3, k2, k1, k0). *)
Theorem NewKey_after_AsBELE (d : slice) (k : TeaKey) (m : mem) :
  NewKey d m = (Ok k, m) ->
  exists m1,
    AsBELE d m = (Ok d, m1) /\
    NewKey d m1 = (Ok (mkTeaKey (k3 k) (k2 k) (k1 k) (k0 k)), m1).
Proof.
  intros H. apply NewKey_Ok_inv in H as (_ & H).
  destruct H as (b0 & b1 & b2 & b3 & b4 & b5 & b6 & b7 & b8 & b9 & b10 & b11
                 & b12 & b13 & b14 & b15 & Hb & Hz & ->).
  assert (Hok : len4_ok (buf m d)) by (rewrite Hb; by vm_compute).
  eexists. split; [by apply AsBELE_run|].
  rewrite Hb. cbn [k0 k1 k2 k3].
  apply NewKey_16.
  - rewrite buf_insert_eq. reflexivity.
  - rewrite buf_insert_eq. rewrite Hb in Hz. intros Hz'. apply Hz.
    unfold Spec.ReverseWordOrder in Hz'. cbn in Hz'.
    repeat match goal with H : Forall _ (_ :: _) |- _ => inversion H; clear H; subst end.
    repeat constructor.
Qed.

Lemma NewKey_after_AsBELE_witness :
  let d := 1%positive in
  let m : mem := {[ d := list_byte_of_string "CDEF89AB45670123" ]} in
  let k := mkTeaKey 1128547654 943276354 875902519 808530483 in
  NewKey d m = (Ok k, m) /\
  exists m1,
    AsBELE d m = (Ok d, m1) /\
    NewKey d m1 = (Ok (mkTeaKey (k3 k) (k2 k) (k1 k) (k0 k)), m1).
Proof.
  intros d m k.
  assert (H : NewKey d m = (Ok k, m)) by (vm_compute; reflexivity).
  split; [exact H|].
  exact (NewKey_after_AsBELE d k m H).
Defined.

(** X12: a key buffer whose words are stored low byte first is made
    canonical by AsLEBE: if NewKey accepts a 16-byte buffer and returns the
    words (k0, k1, k2, k3), then after AsLEBE on that buffer NewKey returns
    the same words, each with its four bytes reversed. *)
Theorem NewKey_after_AsLEBE (d : slice) (k : TeaKey) (m : mem) :
  NewKey d m = (Ok k, m) ->
  exists m1,
    AsLEBE d m = (Ok d, m1) /\
    NewKey d m1
    = (Ok (mkTeaKey (bswap32 (k0 k)) (bswap32 (k1 k)) (bswap32 (k2 k)) (bswap32 (k3 k))),
       m1).
Proof.
  intros H. apply NewKey_Ok_inv in H as (_ & H).
  destruct H as (b0 & b1 & b2 & b3 & b4 & b5 & b6 & b7 & b8 & b9 & b10 & b11
                 & b12 & b13 & b14 & b15 & Hb & Hz & ->).
  assert (Hok : len4_ok (buf m d)) by (rewrite Hb; by vm_compute).
  eexists. split; [by apply AsLEBE_run|].
  rewrite Hb. cbn [k0 k1 k2 k3]. rewrite !bswap32_word.
  apply NewKey_16.
  - rewrite buf_insert_eq. reflexivity.
  - rewrite buf_insert_eq. rewrite Hb in Hz. intros Hz'. apply Hz.
    unfold Spec.ReverseBytesPerWord in Hz'. cbn in Hz'.
    repeat match goal with H : Forall _ (_ :: _) |- _ => inversion H; clear H; subst end.
    repeat constructor.
Qed.

Lemma NewKey_after_AsLEBE_witness :
  let d := 1%positive in
  let m : mem := {[ d := list_byte_of_string "32107654BA98FEDC" ]} in
  let k := mkTeaKey 858927408 926299444 1111570744 1178944579 in
  NewKey d m = (Ok k, m) /\
  exists m1,
    AsLEBE d m = (Ok d, m1) /\
    NewKey d m1
    = (Ok (mkTeaKey (bswap32 (k0 k)) (bswap32 (k1 k)) (bswap32 (k2 k)) (bswap32 (k3 k))),
       m1).
Proof.
  intros d m k.
  assert (H : NewKey d m = (Ok k, m)) by (vm_compute; reflexivity).
  split; [exact H|].
  exact (NewKey_after_AsLEBE d k m H).
Defined.

(** X13: a key buffer that is the canonical one read backwards is made
    canonical by AsLELE: if NewKey accepts a 16-byte buffer and returns the
    words (k0, k1, k2, k3), then after AsLELE on that buffer NewKey returns
    the words in reverse order, each with its four bytes reversed. *)
Theorem NewKey_after_AsLELE (d : slice) (k : TeaKey) (m : mem) :
  NewKey d m = (Ok k, m) ->
  exists m1,
    AsLELE d m = (Ok d, m1) /\
    NewKey d m1
    = (Ok (mkTeaKey (bswap32 (k3 k)) (bswap32 (k2 k)) (bswap32 (k1 k)) (bswap32 (k0 k))),
       m1).
Proof.
  intros H. apply NewKey_Ok_inv in H as (_ & H).
  destruct H as (b0 & b1 & b2 & b3 & b4 & b5 & b6 & b7 & b8 & b9 & b10 & b11
                 & b12 & b13 & b14 & b15 & Hb & Hz & ->).
  assert (Hok : len4_ok (buf m d)) by (rewrite Hb; by vm_compute).
  eexists. split; [by apply AsLELE_run|].
  rewrite Hb. cbn [k0 k1 k2 k3]. rewrite !bswap32_word.
  apply NewKey_16.
  - rewrite buf_insert_eq. reflexivity.
  - rewrite buf_insert_eq. rewrite Hb in Hz. intros Hz'. apply Hz.
    unfold Spec.ReverseWhole in Hz'. cbn in Hz'.
    repeat match goal with H : Forall _ (_ :: _) |- _ => inversion H; clear H; subst end.
    repeat constructor.
Qed.

Lemma NewKey_after_AsLELE_witness :
  let d := 1%positive in
  let m : mem := {[ d := list_byte_of_string "FEDCBA9876543210" ]} in
  let k := mkTeaKey 1178944579 1111570744 926299444 858927408 in
  NewKey d m = (Ok k, m) /\
  exists m1,
    AsLELE d m = (Ok d, m1) /\
    NewKey d m1
    = (Ok (mkTeaKey (bswap32 (k3 k)) (bswap32 (k2 k)) (bswap32 (k1 k)) (bswap32 (k0 k))),
       m1).
Proof.
  intros d m k.
  assert (H : NewKey d m = (Ok k, m)) by (vm_compute; reflexivity).
  split; [exact H|].
  exact (NewKey_after_AsLELE d k m H).
Defined.

(** ** Keys as values *)

Lemma word_of_bytes_inj (a0 a1 a2 a3 c0 c1 c2 c3 : byte) :
  Spec.word_of_bytes a0 a1 a2 a3 = Spec.word_of_bytes c0 c1 c2 c3 ->
  a0 = c0 /\ a1 = c1 /\ a2 = c2 /\ a3 = c3.
Proof.
  intros H. apply (f_equal Spec.bytes_of_word) in H.
  rewrite !bytes_of_word_of_bytes in H. by injection H.
Qed.

(** X14: NewKey loses nothing of an accepted key: two buffers for which it
    returns the same key hold the same 16 bytes. *)
Theorem NewKey_injective (d1 d2 : slice) (k : TeaKey) (m1 m2 : mem) :
  NewKey d1 m1 = (Ok k, m1) ->
  NewKey d2 m2 = (Ok k, m2) ->
  buf m1 d1 = buf m2 d2.
Proof.
  intros H1 H2.
  apply NewKey_Ok_inv in H1 as (_ & H1). apply NewKey_Ok_inv in H2 as (_ & H2).
  destruct H1 as (a0 & a1 & a2 & a3 & a4 & a5 & a6 & a7 & a8 & a9 & a10 & a11
                  & a12 & a13 & a14 & a15 & -> & _ & ->).
  destruct H2 as (c0 & c1 & c2 & c3 & c4 & c5 & c6 & c7 & c8 & c9 & c10 & c11
                  & c12 & c13 & c14 & c15 & -> & _ & E).
  injection E as E0 E1 E2 E3.
  apply word_of_bytes_inj in E0 as (-> & -> & -> & ->).
  apply word_of_bytes_inj in E1 as (-> & -> & -> & ->).
  apply word_of_bytes_inj in E2 as (-> & -> & -> & ->).
  apply word_of_bytes_inj in E3 as (-> & -> & -> & ->).
  reflexivity.
Qed.

Lemma NewKey_injective_witness :
  let a := 1%positive in
  let b := 2%positive in
  let m : mem := {[ a := list_byte_of_string "0123456789ABCDEF";
                    b := list_byte_of_string "0123456789ABCDEF" ]} in
  let k := mkTeaKey 808530483 875902519 943276354 1128547654 in
  NewKey a m = (Ok k, m) /\ NewKey b m = (Ok k, m) /\ buf m a = buf m b.
Proof.
  intros a b m k.
  assert (H1 : NewKey a m = (Ok k, m)) by (vm_compute; reflexivity).
  assert (H2 : NewKey b m = (Ok k, m)) by (vm_compute; reflexivity).
  split; [exact H1|]. split; [exact H2|].
  exact (NewKey_injective a b k m m H1 H2).
Defined.

(** X15: a key that NewKey returns is a valid key: each of its four words
    is below 2^32, the words are not all zero, and the call has left the
    store as it was. *)
Theorem NewKey_key_invariant (d : slice) (k : TeaKey) (m m' : mem) :
  NewKey d m = (Ok k, m') ->
  m' = m /\
  U32.in_range (k0 k) /\ U32.in_range (k1 k) /\
  U32.in_range (k2 k) /\ U32.in_range (k3 k) /\
  ~ (k0 k = 0 /\ k1 k = 0 /\ k2 k = 0 /\ k3 k = 0).
Proof.
  intros H. apply NewKey_Ok_inv in H as (-> & H).
  destruct H as (b0 & b1 & b2 & b3 & b4 & b5 & b6 & b7 & b8 & b9 & b10 & b11
                 & b12 & b13 & b14 & b15 & Hb & Hz & ->).
  cbn [k0 k1 k2 k3].
  split; [done|]. repeat (split; [apply word_of_bytes_range|]).
  intros (E0 & E1 & E2 & E3). apply Hz. rewrite Hb.
  apply word_of_bytes_zero in E0 as (-> & -> & -> & ->).
  apply word_of_bytes_zero in E1 as (-> & -> & -> & ->).
  apply word_of_bytes_zero in E2 as (-> & -> & -> & ->).
  apply word_of_bytes_zero in E3 as (-> & -> & -> & ->).
  repeat constructor.
Qed.

Lemma NewKey_key_invariant_witness :
  let d := 1%positive in
  let m : mem := {[ d := list_byte_of_string "0123456789ABCDEF" ]} in
  let k := mkTeaKey 808530483 875902519 943276354 1128547654 in
  NewKey d m = (Ok k, m) /\
  m = m /\
  U32.in_range (k0 k) /\ U32.in_range (k1 k) /\
  U32.in_range (k2 k) /\ U32.in_range (k3 k) /\
  ~ (k0 k = 0 /\ k1 k = 0 /\ k2 k = 0 /\ k3 k = 0).
Proof.
  intros d m k.
  assert (H : NewKey d m = (Ok k, m)) by (vm_compute; reflexivity).
  split; [exact H|].
  exact (NewKey_key_invariant d k m m H).
Defined.

(** ** someBytesEqual *)

Lemma list_byte_of_string_length (s : string) :
  length (list_byte_of_string s) = String.length s.
Proof.
  unfold list_byte_of_string. rewrite length_map.
  induction s as [|a s IH]; [done|]. simpl. by rewrite IH.
Qed.

Lemma someBytesEqual_range_run (bs : list byte) : forall (r : slice) (m : mem)
    (pre rest : list byte),
  buf m r = pre ++ rest -> length rest = length bs ->
  exists b : bool,
    someBytesEqual_range r (Z.of_nat (length pre)) bs m = (Ok b, m) /\
    (b = false <->
     forall (i : nat) (x y : byte), rest !! i = Some x -> bs !! i = Some y -> x <> y).
Proof.
  induction bs as [|c bs IH]; intros r m pre rest Hb Hl.
  - exists false. split; [reflexivity|]. split; [|done]. intros _ i x y _ Hy. done.
  - destruct rest as [|a rest]; [discriminate Hl|].
    cbn [someBytesEqual_range].
    erewrite run_bind_ok
      by (eapply (load_app _ _ pre _ _ 0); [exact Hb | lia | lia | reflexivity]).
    destruct (Byte.eqb c a) eqn:E.
    + exists true. split; [reflexivity|]. split; [discriminate|].
      intros H. exfalso. apply byte_dec_bl in E. by apply (H 0%nat a c).
    + destruct (IH r m (pre ++ [a]) rest) as (b & Hrun & Hiff).
      { rewrite Hb. by rewrite <- app_assoc. }
      { simpl in Hl. lia. }
      exists b. split.
      * rewrite <- Hrun. f_equal. rewrite length_app. simpl. lia.
      * rewrite Hiff. split.
        -- intros H [|i] x y Hx Hy.
           ++ injection Hx as <-. injection Hy as <-.
              apply eqb_false in E. congruence.
           ++ by apply (H i).
        -- intros H i x y Hx Hy. by apply (H (S i)).
Qed.

(** X16: someBytesEqual never panics and changes nothing; it answers false
    exactly when r and s have the same length and differ at every position,
    so it answers true for lengths that differ and false for two empty
    inputs. *)
Theorem someBytesEqual_false_iff (r : slice) (s : string) (m : mem) :
  exists b : bool,
    someBytesEqual r s m = (Ok b, m) /\
    (b = false <->
     length (buf m r) = String.length s /\
     forall (i : nat) (x y : byte),
       buf m r !! i = Some x -> list_byte_of_string s !! i = Some y -> x <> y).
Proof.
  unfold someBytesEqual. erewrite run_bind_ok by apply len_run.
  destruct (Z.eqb_spec (Z.of_nat (length (buf m r))) (Z.of_nat (String.length s)))
    as [E|E]; cbn [negb].
  - destruct (someBytesEqual_range_run (list_byte_of_string s) r m [] (buf m r))
      as (b & Hrun & Hiff); [done | rewrite list_byte_of_string_length; lia |].
    exists b. split; [exact Hrun|]. rewrite Hiff. split; [|tauto].
    intros H. split; [lia | exact H].
  - exists true. split; [reflexivity|]. split; [discriminate|].
    intros [Hl _]. exfalso. apply E. by rewrite Hl.
Qed.

(** X17: chk4len returns l - 1, the index of the last element, exactly for
    the lengths l >= 4 that are multiples of 4, and panics with [em] for
    every other l, zero and negative values included; it never touches the
    store. *)
Theorem chk4len_last_index (l : Z) (m : mem) :
  (4 <= l /\ l mod 4 = 0) /\ chk4len l m = (Ok (l - 1), m)
  \/ (l < 4 \/ l mod 4 <> 0) /\ chk4len l m = (Panicked (PanicMsg em), m).
Proof.
  destruct (Z_lt_dec l 4) as [H|H].
  - right. split; [by left|]. apply chk4len_fail. by left.
  - destruct (Z.eq_dec (l mod 4) 0) as [E|E].
    + left. split; [lia|]. apply chk4len_ok; [lia | done].
    + right. split; [by right|]. apply chk4len_fail. by right.
Qed.
